(** * The knight-move grid game of [main.py]: model and verified properties

    The game state of class [GridGame] is a record; its methods are functions
    in a small outcome monad that keeps Python's run-time faults visible
    ([IndexError] of list indexing, [ValueError] of [min] on an empty list)
    and the exhaustion of the fuel that bounds the one [while True] loop. *)

From Stdlib Require Import ZArith Lia.
From stdpp Require Import base option list gmap sets.

Local Open Scope Z_scope.

(* stdpp's solvers clear hypotheses by name and warn when one is gone. *)
Set Warnings "-clear-no-such-hyp".

(** ** Python primitives *)

Inductive exn : Set := IndexError | ValueError | ZeroDivisionError.

Inductive outcome (A : Type) : Type :=
  | Ok (a : A)
  | Raise (e : exn)
  | OutOfFuel.

Arguments Ok {A} a.
Arguments Raise {A} e.
Arguments OutOfFuel {A}.

#[global] Instance outcome_ret : MRet outcome := fun A a => Ok a.

#[global] Instance outcome_bind : MBind outcome := fun A B f m =>
  match m with
  | Ok a => f a
  | Raise e => Raise e
  | OutOfFuel => OutOfFuel
  end.

Module Py.

(** [l[i]]: a negative index counts from the end, anything outside
    [-len, len) raises. *)
Definition norm_index (n i : Z) : option nat :=
  let j := if i <? 0 then i + n else i in
  if (0 <=? j) && (j <? n) then Some (Z.to_nat j) else None.

Definition getitem {A} (l : list A) (i : Z) : outcome A :=
  match norm_index (Z.of_nat (length l)) i with
  | Some k =>
      match l !! k with
      | Some x => Ok x
      | None => Raise IndexError
      end
  | None => Raise IndexError
  end.

(** [l[i] = x] *)
Definition setitem {A} (l : list A) (i : Z) (x : A) : outcome (list A) :=
  match norm_index (Z.of_nat (length l)) i with
  | Some k => Ok (<[k:=x]> l)
  | None => Raise IndexError
  end.

(** [a // b], rounding towards minus infinity as [Z.div] does. *)
Definition floordiv (a b : Z) : outcome Z :=
  if b =? 0 then Raise ZeroDivisionError else Ok (a `div` b).

(** [range(n)] *)
Definition range (n : Z) : list Z := seqZ 0 n.

(** [min(l, key=key)]: the first element whose key is minimal. *)
Fixpoint min_from {A} (key : A → nat) (best : A) (l : list A) : A :=
  match l with
  | [] => best
  | x :: l' =>
      if (key x <? key best)%nat then min_from key x l' else min_from key best l'
  end.

Definition min_key {A} (key : A → nat) (l : list A) : outcome A :=
  match l with
  | [] => Raise ValueError
  | x :: l' => Ok (min_from key x l')
  end.

(** A [for] loop whose body may [return]: the body either continues with
    an updated loop state or leaves the enclosing function with a value. *)
Inductive flow (S R : Type) : Type :=
  | Continue (s : S)
  | Return (r : R).

Arguments Continue {S R} s.
Arguments Return {S R} r.

Fixpoint for_in {A S R} (xs : list A) (body : A → S → outcome (flow S R))
    (s : S) : outcome (flow S R) :=
  match xs with
  | [] => Ok (Continue s)
  | x :: xs' =>
      match body x s with
      | Ok (Continue s') => for_in xs' body s'
      | other => other
      end
  end.

End Py.

(** ** The game state *)

Abbreviation position := (Z * Z)%type (only parsing).

Record GridGame : Type := mkGridGame {
  cell_size : Z;
  grid_size_x : Z;
  grid_size_y : Z;
  grid : list (list Z);
  counter : Z;
  last_clicked : option position;
  game_over : bool;
  max_possible_moves : nat
}.

(** [0 <= row < self.grid_size_y and 0 <= col < self.grid_size_x] *)
Definition in_grid (g : GridGame) (row col : Z) : bool :=
  (0 <=? row) && (row <? grid_size_y g) && ((0 <=? col) && (col <? grid_size_x g)).

(** [(row_diff == 2 and col_diff == 1) or (row_diff == 1 and col_diff == 2)] *)
Definition knight_shape (row_diff col_diff : Z) : bool :=
  (row_diff =? 2) && (col_diff =? 1) || (row_diff =? 1) && (col_diff =? 2).

(** ** [calculate_max_moves] *)

Definition get_valid_neighbors (g : GridGame) (pos : position)
    (visited : gset position) : list position :=
  let '(row, col) := pos in
  let moves :=
    [ (row+2, col+1); (row+2, col-1); (row-2, col+1); (row-2, col-1);
      (row+1, col+2); (row+1, col-2); (row-1, col+2); (row-1, col-2) ] in
  filter (λ rc, in_grid g rc.1 rc.2 = true ∧ rc ∉ visited) moves.

(** [self.grid[row][col]] *)
Definition grid_get (grid : list (list Z)) (row col : Z) : outcome Z :=
  r ← Py.getitem grid row;
  Py.getitem r col.

(** [self.grid[row][col] = v]: the row object is fetched and updated in
    place; the rows are distinct objects, so no other row changes. *)
Definition grid_assign (grid : list (list Z)) (row col v : Z)
    : outcome (list (list Z)) :=
  r ← Py.getitem grid row;
  r' ← Py.setitem r col v;
  Py.setitem grid row r'.

(** The [while True] loop of [warnsdorff_tour]; one unit of fuel per
    execution of the loop body. *)
Fixpoint warnsdorff_loop (g : GridGame) (fuel : nat) (visited : gset position)
    (pos : position) : outcome nat :=
  match fuel with
  | O => OutOfFuel
  | S fuel' =>
      let neighbors := get_valid_neighbors g pos visited in
      match neighbors with
      | [] => Ok (size visited)
      | _ :: _ =>
          next_pos ← Py.min_key
            (λ x, length (get_valid_neighbors g x visited)) neighbors;
          warnsdorff_loop g fuel' (visited ∪ {[ next_pos ]}) next_pos
      end
  end.

(** Every pass of the loop body but the last marks a new cell of the grid,
    so one more pass than the grid has cells is never needed. *)
Definition tour_fuel (g : GridGame) : nat :=
  S (Z.to_nat (grid_size_y g) * Z.to_nat (grid_size_x g)).

Definition warnsdorff_tour (g : GridGame) (start_pos : position) : outcome nat :=
  warnsdorff_loop g (tour_fuel g) {[ start_pos ]} start_pos.

Definition calculate_max_moves (g : GridGame) : outcome nat :=
  f ← Py.for_in (R := Empty_set) (Py.range (grid_size_y g)) (λ i max_moves,
         Py.for_in (R := Empty_set) (Py.range (grid_size_x g)) (λ j max_moves,
           moves ← warnsdorff_tour g (i, j);
           Ok (Py.Continue (Nat.max max_moves moves))) max_moves) 0%nat;
  match f with
  | Py.Continue max_moves => Ok max_moves
  | Py.Return r => match r : Empty_set with end
  end.

(** ** [reset_game], [get_cell_position], [is_valid_move], [has_valid_moves] *)

Definition reset_game (g : GridGame) : outcome GridGame :=
  let grid' := (λ _, (λ _, 0) <$> Py.range (grid_size_x g)) <$> Py.range (grid_size_y g) in
  let g1 := mkGridGame (cell_size g) (grid_size_x g) (grid_size_y g)
              grid' 1 None false (max_possible_moves g) in
  m ← calculate_max_moves g1;
  Ok (mkGridGame (cell_size g) (grid_size_x g) (grid_size_y g) grid' 1 None false m).

Definition get_cell_position (g : GridGame) (mouse_pos : Z * Z)
    : outcome position :=
  let '(x, y) := mouse_pos in
  row ← Py.floordiv y (cell_size g);
  col ← Py.floordiv x (cell_size g);
  Ok (row, col).

Definition is_valid_move (g : GridGame) (row col : Z) : outcome bool :=
  match last_clicked g with
  | None => Ok true
  | Some (last_row, last_col) =>
      let row_diff := Z.abs (row - last_row) in
      let col_diff := Z.abs (col - last_col) in
      if knight_shape row_diff col_diff then
        v ← grid_get (grid g) row col;
        Ok (v =? 0)
      else Ok false
  end.

Definition has_valid_moves (g : GridGame) : outcome bool :=
  match last_clicked g with
  | None => Ok true
  | Some (last_row, last_col) =>
      f ← Py.for_in (Py.range (grid_size_y g)) (λ i _,
             Py.for_in (Py.range (grid_size_x g)) (λ j _,
               v ← grid_get (grid g) i j;
               if v =? 0 then
                 let row_diff := Z.abs (i - last_row) in
                 let col_diff := Z.abs (j - last_col) in
                 if knight_shape row_diff col_diff then Ok (Py.Return true)
                 else Ok (Py.Continue ())
               else Ok (Py.Continue ())) ()) ();
      match f with
      | Py.Return b => Ok b
      | Py.Continue _ => Ok false
      end
  end.

(** ** The event loop of [run]

    [apply_move] is the [MOUSEBUTTONDOWN] branch from the cell that
    [get_cell_position] returned: the test of [game_over], the guard of the
    [if] and its body. [handle_event] repeats the test of [game_over]
    because the source makes it before it converts the mouse position. *)

Definition move_guard (g : GridGame) (row col : Z) : outcome bool :=
  if in_grid g row col then is_valid_move g row col else Ok false.

(** The three assignments of an accepted click, and [self.game_over = True]. *)
Definition mark (g : GridGame) (grid' : list (list Z)) (row col : Z) : GridGame :=
  mkGridGame (cell_size g) (grid_size_x g) (grid_size_y g) grid'
    (counter g + 1) (Some (row, col)) (game_over g) (max_possible_moves g).

Definition end_game (g : GridGame) : GridGame :=
  mkGridGame (cell_size g) (grid_size_x g) (grid_size_y g) (grid g)
    (counter g) (last_clicked g) true (max_possible_moves g).

Definition place (g : GridGame) (row col : Z) : outcome GridGame :=
  grid' ← grid_assign (grid g) row col (counter g);
  let g1 := mark g grid' row col in
  more ← has_valid_moves g1;
  if more : bool then Ok g1 else Ok (end_game g1).

Definition apply_move (g : GridGame) (row col : Z) : outcome GridGame :=
  if game_over g then Ok g
  else
    ok ← move_guard g row col;
    if ok : bool then place g row col else Ok g.

Inductive key : Set := K_r | K_other.

Inductive event : Set :=
  | QUIT
  | KEYDOWN (k : key)
  | MOUSEBUTTONDOWN (mouse_pos : Z * Z)
  | OTHER.

Definition handle_event (g : GridGame) (ev : event) : outcome GridGame :=
  match ev with
  | QUIT => Ok g
  | KEYDOWN K_r => reset_game g
  | KEYDOWN K_other => Ok g
  | MOUSEBUTTONDOWN mouse_pos =>
      if game_over g then Ok g
      else
        '(row, col) ← get_cell_position g mouse_pos;
        apply_move g row col
  | OTHER => Ok g
  end.

(** [__init__], with the three constants of the source as parameters; the
    source's game is [init]. *)
Definition new_game (cs x y : Z) : outcome GridGame :=
  reset_game (mkGridGame cs x y [] 0 None false 0).

Definition init : outcome GridGame := new_game 60 5 10.

(** Whether a click is accepted: the game is running and the guard holds. *)
Definition accepted (g : GridGame) (row col : Z) : bool :=
  negb (game_over g) &&
  match move_guard g row col with Ok b => b | _ => false end.

Definition accepts (g : GridGame) (ev : event) : bool :=
  match ev with
  | MOUSEBUTTONDOWN mouse_pos =>
      match get_cell_position g mouse_pos with
      | Ok (row, col) => accepted g row col
      | _ => false
      end
  | _ => false
  end.

Definition is_reset (ev : event) : bool :=
  match ev with KEYDOWN K_r => true | _ => false end.

(** States the program can be in, with the number of moves accepted since
    the grid was last cleared. *)
Inductive reachable : nat → GridGame → Prop :=
  | reach_new cs x y g :
      new_game cs x y = Ok g → reachable 0 g
  | reach_reset k g g' :
      reachable k g → handle_event g (KEYDOWN K_r) = Ok g' → reachable 0 g'
  | reach_accept k g ev g' :
      reachable k g → accepts g ev = true →
      handle_event g ev = Ok g' → reachable (S k) g'
  | reach_other k g ev g' :
      reachable k g → accepts g ev = false → is_reset ev = false →
      handle_event g ev = Ok g' → reachable k g'.

(** ** Reading the grid in statements *)

Definition wf_grid (g : GridGame) : Prop :=
  length (grid g) = Z.to_nat (grid_size_y g) ∧
  Forall (λ r, length r = Z.to_nat (grid_size_x g)) (grid g).

(** The value of an in-bounds cell. *)
Definition cell (g : GridGame) (row col : Z) : option Z :=
  if in_grid g row col then
    r ← grid g !! Z.to_nat row; r !! Z.to_nat col
  else None.

Definition knight_apart (p q : position) : Prop :=
  knight_shape (Z.abs (q.1 - p.1)) (Z.abs (q.2 - p.2)) = true.

#[global] Instance knight_apart_dec p q : Decision (knight_apart p q).
Proof. unfold knight_apart. apply _. Defined.

(** ** Warnsdorff's procedure as the specification words it

    The cells of the grid, the unvisited in-bounds knight-neighbours of a
    cell as a set picked out by displacement, and the runs of the procedure:
    stop when the current cell has no such neighbour, otherwise move to one
    that has the fewest such neighbours of its own. *)

Definition cells_list (g : GridGame) : list position :=
  i ← Py.range (grid_size_y g); j ← Py.range (grid_size_x g); [(i, j)].

Definition all_cells (g : GridGame) : gset position := list_to_set (cells_list g).

Definition unvisited_neighbors (g : GridGame) (visited : gset position)
    (p : position) : gset position :=
  filter (λ q, knight_apart p q ∧ q ∉ visited) (all_cells g).

Definition degree (g : GridGame) (visited : gset position) (p : position) : nat :=
  size (unvisited_neighbors g visited p).

Inductive warnsdorff_run (g : GridGame) : gset position → position → nat → Prop :=
  | run_stop visited current :
      unvisited_neighbors g visited current = ∅ →
      warnsdorff_run g visited current (size visited)
  | run_move visited current next n :
      next ∈ unvisited_neighbors g visited current →
      (∀ q, q ∈ unvisited_neighbors g visited current →
            (degree g visited next ≤ degree g visited q)%nat) →
      warnsdorff_run g (visited ∪ {[ next ]}) next n →
      warnsdorff_run g visited current n.

(** [m] is the largest value of [len] over the cells of the grid. *)
Definition max_over_cells (g : GridGame) (len : position → nat) (m : nat) : Prop :=
  (∃ s, in_grid g s.1 s.2 = true ∧ len s = m) ∧
  (∀ s, in_grid g s.1 s.2 = true → (len s ≤ m)%nat).

(** ** Concrete games used as test inputs *)

Fixpoint run_events (g : GridGame) (evs : list event) : outcome GridGame :=
  match evs with
  | [] => Ok g
  | ev :: evs' => g' ← handle_event g ev; run_events g' evs'
  end.

Definition play (evs : list event) : outcome GridGame :=
  g ← init; run_events g evs.

(** The source's game right after [__init__], and after a first click on
    the cells (0,0), (1,0) and (8,0). *)
Definition fresh_10x5 : GridGame :=
  mkGridGame 60 5 10 (replicate 10 (replicate 5 0)) 1 None false 50.

Definition first_click (row : nat) : GridGame :=
  mkGridGame 60 5 10
    (<[row := [1; 0; 0; 0; 0]]> (replicate 10 (replicate 5 0)))
    2 (Some (Z.of_nat row, 0)) false 50.

(** The state an accepted click on an in-bounds cell leaves, before the
    scan for further moves. *)
Definition updated (g : GridGame) (row col : Z) : GridGame :=
  mark g (alter (<[Z.to_nat col := counter g]>) (Z.to_nat row) (grid g)) row col.

(** An unvisited cell of the grid a knight's move away from [last]. *)
Definition free_knight_cell (g : GridGame) (last : position) (i j : Z) : bool :=
  match cell g i j with
  | Some v => (v =? 0) && knight_shape (Z.abs (i - last.1)) (Z.abs (j - last.2))
  | None => false
  end.

(** A 3x3 game: its centre has no knight-neighbour on the grid. *)
Definition fresh_3x3 : GridGame :=
  mkGridGame 60 3 3 (replicate 3 (replicate 3 0)) 1 None false 8.

(** ** The invariant of the reachable states

    After [k] accepted moves the counter is [k + 1], every cell holds a
    value from 0 to [k], every value from 1 to [k] is in exactly one cell,
    the last clicked cell holds [k], and the displayed maximum is what
    [calculate_max_moves] returns for the grid. *)
Record game_inv (k : nat) (g : GridGame) : Prop := {
  inv_wf : wf_grid g;
  inv_counter : counter g = Z.of_nat k + 1;
  inv_max : calculate_max_moves g = Ok (max_possible_moves g);
  inv_range : ∀ row col v, cell g row col = Some v → 0 ≤ v ≤ Z.of_nat k;
  inv_once : ∀ v, 1 ≤ v ≤ Z.of_nat k →
    ∃ row col, cell g row col = Some v ∧
      ∀ row' col', cell g row' col' = Some v → (row', col') = (row, col);
  inv_last :
    match last_clicked g with
    | None => k = 0%nat
    | Some (row, col) => cell g row col = Some (Z.of_nat k) ∧ (0 < k)%nat
    end
}.

(** ** The window and the drawing pass of [run]

    [__init__] sizes the window from the cell size and the dimensions; the
    drawing pass fills the rectangle of each cell, writes the number of a
    visited cell and ends with one line of text. Of pygame only the
    geometry is kept: a rectangle is [(left, top, width, height)] and holds
    the pixels from its left and top edge up to, not including, the
    opposite edges. *)

Definition width (g : GridGame) : Z := cell_size g * grid_size_x g.

Definition height (g : GridGame) : Z := cell_size g * grid_size_y g + 60.

Definition cell_rect (g : GridGame) (i j : Z) : Z * Z * Z * Z :=
  (j * cell_size g, i * cell_size g, cell_size g, cell_size g).

Definition in_rect (rect : Z * Z * Z * Z) (pixel : Z * Z) : bool :=
  let '(x0, y0, w, h) := rect in
  let '(x, y) := pixel in
  (x0 <=? x) && (x <? x0 + w) && ((y0 <=? y) && (y <? y0 + h)).

Definition white : Z * Z * Z := (255, 255, 255).
Definition pink : Z * Z * Z := (255, 200, 200).
Definition green : Z * Z * Z := (200, 255, 200).

(** The colour the cell [(i, j)] ends up filled with: the background where
    no rectangle is filled. *)
Definition cell_fill (g : GridGame) (i j : Z) : outcome (Z * Z * Z) :=
  if game_over g then Ok pink
  else
    match last_clicked g with
    | Some (last_row, last_col) =>
        let row_diff := Z.abs (i - last_row) in
        let col_diff := Z.abs (j - last_col) in
        if knight_shape row_diff col_diff then
          v ← grid_get (grid g) i j;
          if v =? 0 then Ok green else Ok white
        else Ok white
    | None => Ok white
    end.

(** The number written in the cell, if any. *)
Definition cell_label (g : GridGame) (i j : Z) : outcome (option Z) :=
  v ← grid_get (grid g) i j;
  if negb (v =? 0) then Ok (Some v) else Ok None.

(** The line of text under the grid: the numbers it shows, or the hint. *)
Inductive text_line : Set :=
  | GameOverLine (moves : Z) (maximum : nat)
  | RestartLine.

Definition moves_text (g : GridGame) : text_line :=
  if game_over g then GameOverLine (counter g - 1) (max_possible_moves g)
  else RestartLine.

(** A click on the top left pixel of the cell [(row, col)]. *)
Definition click_on (g : GridGame) (row col : Z) : event :=
  MOUSEBUTTONDOWN (col * cell_size g, row * cell_size g).

(** A game that has followed a tour so far: the visited cells are the
    numbered ones, the tour stands on the last clicked cell, and the flag
    tells whether a move is left. *)
Record follows (g0 g : GridGame) (visited : gset position) (pos : position)
    : Prop := {
  fol_x : grid_size_x g = grid_size_x g0;
  fol_y : grid_size_y g = grid_size_y g0;
  fol_size : cell_size g ≠ 0;
  fol_wf : wf_grid g;
  fol_last : last_clicked g = Some pos;
  fol_counter : counter g = Z.of_nat (size visited) + 1;
  fol_cells : ∀ row col v, cell g row col = Some v → (v = 0 ↔ (row, col) ∉ visited);
  fol_over : has_valid_moves g = Ok (negb (game_over g))
}.

(** * Lemmas *)

(** ** Python indexing inside the bounds *)

Section Indexing.
Context {A : Type}.
Implicit Types (l : list A) (i : Z) (x : A).

Lemma norm_index_inside n i : 0 ≤ i < n → Py.norm_index n i = Some (Z.to_nat i).
Proof.
  intros [H0 Hn]. unfold Py.norm_index.
  destruct (Z.ltb_spec i 0) as [?|_]; [lia|].
  destruct (Z.leb_spec 0 i); [|lia].
  destruct (Z.ltb_spec i n); [reflexivity|lia].
Qed.

Lemma norm_index_above n i : 0 ≤ n ≤ i → Py.norm_index n i = None.
Proof.
  intros [H0 Hn]. unfold Py.norm_index.
  destruct (Z.ltb_spec i 0) as [?|_]; [lia|].
  destruct (Z.ltb_spec i n); [lia|]. by rewrite andb_false_r.
Qed.

Lemma getitem_lookup l i x :
  0 ≤ i → l !! Z.to_nat i = Some x → Py.getitem l i = Ok x.
Proof.
  intros H0 Hl. unfold Py.getitem.
  assert (Z.to_nat i < length l)%nat by (eapply lookup_lt_Some; eauto).
  rewrite norm_index_inside by lia. by rewrite Hl.
Qed.

Lemma getitem_above l i : Z.of_nat (length l) ≤ i → Py.getitem l i = Raise IndexError.
Proof. intros H. unfold Py.getitem. rewrite norm_index_above; [done|lia]. Qed.

Lemma setitem_insert l i x :
  0 ≤ i < Z.of_nat (length l) → Py.setitem l i x = Ok (<[Z.to_nat i := x]> l).
Proof. intros H. unfold Py.setitem. by rewrite norm_index_inside. Qed.

End Indexing.

(** ** Cells of a well-formed grid *)

Lemma in_grid_spec g row col :
  in_grid g row col = true ↔ 0 ≤ row < grid_size_y g ∧ 0 ≤ col < grid_size_x g.
Proof. unfold in_grid. rewrite !andb_true_iff. lia. Qed.

Lemma in_grid_false g row col :
  in_grid g row col = false ↔ ¬ (0 ≤ row < grid_size_y g ∧ 0 ≤ col < grid_size_x g).
Proof. rewrite <- in_grid_spec. by destruct (in_grid g row col). Qed.

Lemma cell_in_grid g row col v : cell g row col = Some v → in_grid g row col = true.
Proof. unfold cell. by destruct (in_grid g row col). Qed.

Lemma cell_lookup g row col v :
  cell g row col = Some v ↔
  in_grid g row col = true ∧
  ∃ r, grid g !! Z.to_nat row = Some r ∧ r !! Z.to_nat col = Some v.
Proof.
  unfold cell. destruct (in_grid g row col).
  - destruct (grid g !! Z.to_nat row) as [r|]; simpl; split.
    + intros H. split; [done|]. by exists r.
    + by intros (_ & r' & [= ->] & H).
    + intros [=].
    + intros (_ & r' & [=] & _).
  - split; [intros [=]|intros [[=] _]].
Qed.

Lemma cell_is_Some g row col :
  wf_grid g → in_grid g row col = true → ∃ v, cell g row col = Some v.
Proof.
  intros [Hlen Hrows] Hin. pose proof Hin as [Hr Hc]%in_grid_spec.
  destruct (lookup_lt_is_Some_2 (grid g) (Z.to_nat row)) as [r Hrow]; [lia|].
  assert (length r = Z.to_nat (grid_size_x g)) as Hlr.
  { eapply (Forall_lookup_1 _ _ _ _ Hrows Hrow). }
  destruct (lookup_lt_is_Some_2 r (Z.to_nat col)) as [v Hv]; [lia|].
  exists v. apply cell_lookup. eauto.
Qed.

Lemma grid_get_cell g row col v :
  cell g row col = Some v → grid_get (grid g) row col = Ok v.
Proof.
  intros (Hin & r & Hrow & Hv)%cell_lookup. apply in_grid_spec in Hin.
  unfold grid_get. rewrite (getitem_lookup _ _ r) by (lia || done). simpl.
  apply getitem_lookup; [lia|done].
Qed.

(** ** [is_valid_move] *)

Lemma is_valid_move_none g row col :
  last_clicked g = None → is_valid_move g row col = Ok true.
Proof. unfold is_valid_move. by intros ->. Qed.

Lemma is_valid_move_not_knight g row col last_row last_col :
  last_clicked g = Some (last_row, last_col) →
  ¬ knight_apart (last_row, last_col) (row, col) →
  is_valid_move g row col = Ok false.
Proof.
  unfold is_valid_move, knight_apart. intros -> Hk. simpl in Hk.
  by destruct (knight_shape _ _).
Qed.

Lemma is_valid_move_cell g row col last_row last_col v :
  last_clicked g = Some (last_row, last_col) →
  cell g row col = Some v →
  is_valid_move g row col =
    Ok (knight_shape (Z.abs (row - last_row)) (Z.abs (col - last_col)) && (v =? 0)).
Proof.
  unfold is_valid_move. intros -> Hv.
  destruct (knight_shape _ _); [|done].
  by rewrite (grid_get_cell _ _ _ _ Hv).
Qed.

Lemma apply_move_outside g row col :
  in_grid g row col = false → apply_move g row col = Ok g.
Proof.
  intros Hout. unfold apply_move, move_guard. rewrite Hout.
  by destruct (game_over g).
Qed.

(** ** Loops *)

Lemma for_in_search {A} (xs : list A) (body : A → () → outcome (Py.flow () bool))
    (p : A → bool) :
  (∀ x, x ∈ xs →
     body x () = Ok (if p x then Py.Return true else Py.Continue ())) →
  Py.for_in xs body () =
    Ok (if existsb p xs then Py.Return true else Py.Continue ()).
Proof.
  induction xs as [|x xs IH]; intros Hbody; [done|].
  simpl. rewrite Hbody by apply list_elem_of_here.
  destruct (p x); [done|]. simpl.
  apply IH. intros y Hy. apply Hbody. by apply list_elem_of_further.
Qed.

Lemma elem_of_range n i : i ∈ Py.range n ↔ 0 ≤ i < n.
Proof. unfold Py.range. rewrite elem_of_seqZ. lia. Qed.

Lemma existsb_range_grid g (p : Z → Z → bool) :
  existsb (λ i, existsb (p i) (Py.range (grid_size_x g))) (Py.range (grid_size_y g)) = true ↔
  ∃ i j, in_grid g i j = true ∧ p i j = true.
Proof.
  rewrite existsb_exists. split.
  - intros (i & Hi & (j & Hj & Hp)%existsb_exists).
    apply list_elem_of_In, elem_of_range in Hi, Hj.
    exists i, j. by rewrite in_grid_spec.
  - intros (i & j & [Hi Hj]%in_grid_spec & Hp).
    exists i. split; [by apply list_elem_of_In, elem_of_range|].
    apply existsb_exists. exists j. split; [|done].
    by apply list_elem_of_In, elem_of_range.
Qed.

(** ** [has_valid_moves] *)

Lemma has_valid_moves_scan g last_row last_col :
  wf_grid g → last_clicked g = Some (last_row, last_col) →
  has_valid_moves g =
    Ok (existsb (λ i, existsb (free_knight_cell g (last_row, last_col) i)
                        (Py.range (grid_size_x g)))
          (Py.range (grid_size_y g))).
Proof.
  intros Hwf Hlast. unfold has_valid_moves. rewrite Hlast.
  rewrite (for_in_search _ _
    (λ i, existsb (free_knight_cell g (last_row, last_col) i)
            (Py.range (grid_size_x g)))); last first.
  { intros i Hi. apply for_in_search. intros j Hj.
    apply elem_of_range in Hi, Hj.
    destruct (cell_is_Some g i j Hwf) as [v Hv]; [by apply in_grid_spec|].
    rewrite (grid_get_cell _ _ _ _ Hv). unfold free_knight_cell. rewrite Hv.
    simpl. destruct (v =? 0); [|done]. simpl. by destruct (knight_shape _ _). }
  simpl. by destruct (existsb _ _).
Qed.

Lemma free_knight_cell_spec g last i j :
  free_knight_cell g last i j = true ↔ cell g i j = Some 0 ∧ knight_apart last (i, j).
Proof.
  unfold free_knight_cell, knight_apart. simpl.
  destruct (cell g i j) as [v|]; [|by split; [|intros [[=] _]]].
  rewrite andb_true_iff, Z.eqb_eq. split.
  - by intros [-> ?].
  - by intros [[= ->] ?].
Qed.

Lemma has_valid_moves_total g : wf_grid g → ∃ b, has_valid_moves g = Ok b.
Proof.
  intros Hwf. destruct (last_clicked g) as [[last_row last_col]|] eqn:Hlast.
  - rewrite (has_valid_moves_scan _ _ _ Hwf Hlast). eauto.
  - unfold has_valid_moves. rewrite Hlast. eauto.
Qed.

(** C5. [has_valid_moves] answers [True] exactly when nothing was clicked
    yet or some in-bounds cell holding 0 lies a knight's move from the last
    clicked cell; before the first click the answer is always [True]. *)
Theorem has_valid_moves_iff g :
  wf_grid g →
  ∃ b, has_valid_moves g = Ok b ∧
       (b = true ↔
          last_clicked g = None ∨
          ∃ last i j, last_clicked g = Some last ∧
                      cell g i j = Some 0 ∧ knight_apart last (i, j)) ∧
       (last_clicked g = None → b = true).
Proof.
  intros Hwf. destruct (last_clicked g) as [[last_row last_col]|] eqn:Hlast.
  - eexists. split; [by apply has_valid_moves_scan|]. split; [|done].
    rewrite existsb_range_grid. split.
    + intros (i & j & _ & Hfree%free_knight_cell_spec).
      right. by exists (last_row, last_col), i, j.
    + intros [[=]|(last & i & j & [= <-] & Hcell & Hk)].
      exists i, j. split; [by eapply cell_in_grid|].
      by apply free_knight_cell_spec.
  - exists true. unfold has_valid_moves. rewrite Hlast.
    split; [done|]. split; [|done]. split; [by left|done].
Qed.

(** ** An accepted click *)

Lemma grid_assign_alter g row col v :
  wf_grid g → in_grid g row col = true →
  grid_assign (grid g) row col v =
    Ok (alter (<[Z.to_nat col := v]>) (Z.to_nat row) (grid g)).
Proof.
  intros Hwf Hin. destruct (cell_is_Some g row col Hwf Hin) as [v0 Hv0].
  apply cell_lookup in Hv0 as (_ & r & Hrow & Hcol).
  apply in_grid_spec in Hin as [Hr Hc].
  pose proof (lookup_lt_Some _ _ _ Hrow). pose proof (lookup_lt_Some _ _ _ Hcol).
  unfold grid_assign. rewrite (getitem_lookup _ _ r) by (lia || done). simpl.
  rewrite setitem_insert by lia. simpl. rewrite setitem_insert by lia.
  f_equal. apply list_eq. intros k.
  rewrite list_lookup_alter, list_lookup_insert. rewrite Hrow. simpl.
  destruct (decide (Z.to_nat row = k)) as [<-|Hne].
  - by rewrite decide_True.
  - rewrite decide_False; [done|]. by intros [? _].
Qed.

Lemma wf_updated g row col : wf_grid g → wf_grid (updated g row col).
Proof.
  intros [Hlen Hrows]. split; simpl.
  - by rewrite length_alter.
  - apply Forall_alter; [done|]. intros r _ Hr. by rewrite length_insert.
Qed.

Lemma cell_updated g row col r c :
  wf_grid g → in_grid g row col = true →
  cell (updated g row col) r c =
    if decide (r = row ∧ c = col) then Some (counter g) else cell g r c.
Proof.
  intros Hwf Hin. unfold cell at 1. simpl.
  change (in_grid (updated g row col) r c) with (in_grid g r c).
  destruct (decide (r = row ∧ c = col)) as [[-> ->]|Hne].
  - rewrite Hin. rewrite list_lookup_alter_eq.
    destruct (cell_is_Some g row col Hwf Hin) as [v0 Hv0].
    apply cell_lookup in Hv0 as (_ & r0 & Hrow & Hcol). rewrite Hrow. simpl.
    apply list_lookup_insert_eq. by eapply lookup_lt_Some.
  - unfold cell. destruct (in_grid g r c) eqn:Hrc; [|done].
    apply in_grid_spec in Hin, Hrc.
    rewrite list_lookup_alter.
    destruct (decide (Z.to_nat row = Z.to_nat r)) as [Heq|_]; [|done].
    assert (row = r) as -> by lia.
    destruct (grid g !! Z.to_nat r) as [r0|]; [simpl|done].
    apply list_lookup_insert_ne. intros Hc. apply Hne. split; [done|lia].
Qed.

Lemma place_updated g row col :
  wf_grid g → in_grid g row col = true →
  ∃ more, has_valid_moves (updated g row col) = Ok more ∧
          place g row col =
            Ok (if more then updated g row col else end_game (updated g row col)).
Proof.
  intros Hwf Hin.
  destruct (has_valid_moves_total (updated g row col)) as [more Hmore];
    [by apply wf_updated|].
  exists more. split; [done|].
  unfold place. rewrite grid_assign_alter by done. simpl.
  fold (updated g row col). rewrite Hmore. simpl. by destruct more.
Qed.

Lemma move_guard_total g row col :
  wf_grid g → ∃ b, move_guard g row col = Ok b.
Proof.
  intros Hwf. unfold move_guard. destruct (in_grid g row col) eqn:Hin; [|eauto].
  destruct (last_clicked g) as [[last_row last_col]|] eqn:Hlast.
  - destruct (cell_is_Some g row col Hwf Hin) as [v Hv].
    rewrite (is_valid_move_cell _ _ _ _ _ _ Hlast Hv). eauto.
  - rewrite is_valid_move_none by done. eauto.
Qed.

Lemma move_guard_in_grid g row col :
  move_guard g row col = Ok true → in_grid g row col = true.
Proof. unfold move_guard. by destruct (in_grid g row col). Qed.

(** What [apply_move] does, by cases on [accepted]. *)
Lemma apply_move_cases g row col :
  wf_grid g →
  if accepted g row col then
    in_grid g row col = true ∧
    ∃ more, has_valid_moves (updated g row col) = Ok more ∧
            apply_move g row col =
              Ok (if more then updated g row col else end_game (updated g row col))
  else apply_move g row col = Ok g.
Proof.
  intros Hwf. unfold accepted, apply_move.
  destruct (game_over g); [done|]. simpl.
  destruct (move_guard_total g row col Hwf) as [b Hb]. rewrite Hb. simpl.
  destruct b; [|done].
  pose proof (move_guard_in_grid _ _ _ Hb) as Hin. split; [done|].
  by apply place_updated.
Qed.

(** ** The concrete games *)

Lemma init_fresh : init = Ok fresh_10x5.
Proof. vm_compute. reflexivity. Qed.

Lemma click_first (row : nat) :
  (row < 10)%nat →
  handle_event fresh_10x5 (MOUSEBUTTONDOWN (0, 60 * Z.of_nat row)) = Ok (first_click row).
Proof.
  intros H. do 10 (destruct row as [|row]; [vm_compute; reflexivity|]). lia.
Qed.

Lemma first_click_reachable (row : nat) :
  (row < 10)%nat → reachable 1 (first_click row).
Proof.
  intros H.
  apply (reach_accept 0 fresh_10x5 (MOUSEBUTTONDOWN (0, 60 * Z.of_nat row))).
  - apply (reach_new 60 5 10). exact init_fresh.
  - do 10 (destruct row as [|row]; [vm_compute; reflexivity|]). lia.
  - by apply click_first.
Qed.

Lemma first_click_wf (row : nat) : (row < 10)%nat → wf_grid (first_click row).
Proof.
  intros H. do 10 (destruct row as [|row]; [split; [done|repeat constructor]|]). lia.
Qed.

(** * The move validator *)

Lemma move_guard_cell g row col last_row last_col v :
  last_clicked g = Some (last_row, last_col) → cell g row col = Some v →
  move_guard g row col =
    Ok (knight_shape (Z.abs (row - last_row)) (Z.abs (col - last_col)) && (v =? 0)).
Proof.
  intros Hlast Hv. unfold move_guard. rewrite (cell_in_grid _ _ _ _ Hv).
  by apply is_valid_move_cell.
Qed.

(** C1, as the code has it. After the first click, the guard of a click
    (the bounds test followed by [is_valid_move]) holds exactly for an
    in-bounds cell that holds 0 and lies a knight's move from the last
    clicked cell, and is [False] otherwise. [is_valid_move] is that guard on
    the cells of the grid, and it is [False] for any position, in bounds or
    not, that is no knight's move away; it makes no bounds test of its own. *)
Theorem is_valid_move_knight g row col last :
  wf_grid g → last_clicked g = Some last →
  (∃ b, move_guard g row col = Ok b ∧
        (b = true ↔ cell g row col = Some 0 ∧ knight_apart last (row, col))) ∧
  (in_grid g row col = true → is_valid_move g row col = move_guard g row col) ∧
  (¬ knight_apart last (row, col) → is_valid_move g row col = Ok false).
Proof.
  intros Hwf Hlast. destruct last as [last_row last_col]. split; [|split].
  - destruct (in_grid g row col) eqn:Hin.
    + destruct (cell_is_Some g row col Hwf Hin) as [v Hv].
      eexists. split; [by eapply move_guard_cell|].
      unfold knight_apart. simpl. rewrite Hv, andb_true_iff, Z.eqb_eq. split.
      * by intros [? ->].
      * by intros [[= ->] ?].
    + exists false. unfold move_guard, cell. rewrite Hin.
      split; [done|]. split; [done|]. by intros [[=] _].
  - intros Hin. unfold move_guard. by rewrite Hin.
  - by apply is_valid_move_not_knight.
Qed.

Lemma is_valid_move_knight_witness :
  wf_grid (first_click 0) ∧ last_clicked (first_click 0) = Some (0, 0) ∧
  ∃ b, move_guard (first_click 0) 2 1 = Ok b ∧
       (b = true ↔ cell (first_click 0) 2 1 = Some 0 ∧ knight_apart (0, 0) (2, 1)).
Proof.
  assert (wf_grid (first_click 0)) as Hwf by (apply first_click_wf; lia).
  split; [exact Hwf|]. split; [reflexivity|].
  exact (proj1 (is_valid_move_knight (first_click 0) 2 1 (0, 0) Hwf eq_refl)).
Defined.

(** C1 fails on [is_valid_move] as stated: after a first click on (1,0) the
    position (-1,1) is out of bounds and a knight's move away, the index -1
    reads the last row, and the answer is [True]. *)
Lemma is_valid_move_reads_last_row :
  reachable 1 (first_click 1) ∧
  last_clicked (first_click 1) = Some (1, 0) ∧
  in_grid (first_click 1) (-1) 1 = false ∧
  is_valid_move (first_click 1) (-1) 1 = Ok true.
Proof.
  split; [apply first_click_reachable; lia|]. by vm_compute.
Qed.

(** C2, as the code has it. Before the first click [is_valid_move] answers
    [True] for every position whatever, and the guard of a click, which
    tests the bounds first, holds for every in-bounds cell and for no
    out-of-bounds position. *)
Theorem is_valid_move_first g row col :
  last_clicked g = None →
  is_valid_move g row col = Ok true ∧
  move_guard g row col = Ok (in_grid g row col).
Proof.
  intros Hlast. split; [by apply is_valid_move_none|].
  unfold move_guard. rewrite is_valid_move_none by done.
  by destruct (in_grid g row col).
Qed.

Lemma is_valid_move_first_witness :
  last_clicked fresh_10x5 = None ∧
  is_valid_move fresh_10x5 3 4 = Ok true ∧
  move_guard fresh_10x5 3 4 = Ok (in_grid fresh_10x5 3 4).
Proof.
  split; [reflexivity|]. exact (is_valid_move_first fresh_10x5 3 4 eq_refl).
Defined.

(** C2 fails on [is_valid_move] as stated: on the fresh game the
    out-of-bounds position (-1,7) is answered [True]. *)
Lemma is_valid_move_first_outside :
  init = Ok fresh_10x5 ∧
  last_clicked fresh_10x5 = None ∧
  in_grid fresh_10x5 (-1) 7 = false ∧
  is_valid_move fresh_10x5 (-1) 7 = Ok true.
Proof. split; [exact init_fresh|]. by vm_compute. Qed.

(** * Rejected clicks *)

(** C3. A click that is rejected, because the game is over, the position is
    out of bounds or [is_valid_move] answers [False], leaves the whole state
    as it was; once the game is over every event but the reset key does, and
    the reset clears the flag. *)
Theorem apply_move_rejected_unchanged g row col :
  game_over g = true ∨ in_grid g row col = false ∨
    is_valid_move g row col = Ok false →
  apply_move g row col = Ok g ∧
  (game_over g = true →
     (∀ ev, is_reset ev = false → handle_event g ev = Ok g) ∧
     (∀ g', handle_event g (KEYDOWN K_r) = Ok g' → game_over g' = false)).
Proof.
  intros Hrej. split.
  - unfold apply_move, move_guard.
    destruct (game_over g); [done|].
    destruct Hrej as [[=]|[->| Hv]]; [done|].
    destruct (in_grid g row col); [|done]. by rewrite Hv.
  - intros Hover. split.
    + intros [|[]|mouse_pos|]; simpl; try done. by rewrite Hover.
    + simpl. unfold reset_game. intros g'.
      destruct (calculate_max_moves _); simpl; [|done..]. by intros [= <-].
Qed.

Lemma apply_move_rejected_witness :
  (game_over (first_click 0) = true ∨ in_grid (first_click 0) 1 1 = false ∨
     is_valid_move (first_click 0) 1 1 = Ok false) ∧
  apply_move (first_click 0) 1 1 = Ok (first_click 0).
Proof.
  assert (is_valid_move (first_click 0) 1 1 = Ok false) as H by reflexivity.
  split; [by right; right|].
  exact (proj1 (apply_move_rejected_unchanged (first_click 0) 1 1
                  (or_intror (or_intror H)))).
Defined.

(** * No fault on any position *)

(** C8, as the code has it. On a well-formed state a click on any position,
    negative or beyond the grid included, returns a state and raises
    nothing: the guard tests the bounds before it calls [is_valid_move], an
    out-of-bounds position is rejected with the state unchanged, and
    [is_valid_move] returns an answer for every position in bounds. *)
Theorem apply_move_total g row col :
  wf_grid g →
  (∃ g', apply_move g row col = Ok g') ∧
  (∃ b, move_guard g row col = Ok b) ∧
  (in_grid g row col = false →
     move_guard g row col = Ok false ∧ apply_move g row col = Ok g) ∧
  (in_grid g row col = true → ∃ b, is_valid_move g row col = Ok b).
Proof.
  intros Hwf. pose proof (move_guard_total g row col Hwf) as Hguard.
  split; [|split; [done|split]].
  - pose proof (apply_move_cases g row col Hwf) as Hcases.
    destruct (accepted g row col); [|eauto].
    destruct Hcases as (_ & more & _ & ->). eauto.
  - intros Hout. split; [|by apply apply_move_outside].
    unfold move_guard. by rewrite Hout.
  - intros Hin. unfold move_guard in Hguard. by rewrite Hin in Hguard.
Qed.

Lemma apply_move_total_witness :
  wf_grid (first_click 8) ∧ ∃ g', apply_move (first_click 8) 10 1 = Ok g'.
Proof.
  assert (wf_grid (first_click 8)) as Hwf by (apply first_click_wf; lia).
  split; [exact Hwf|].
  exact (proj1 (apply_move_total (first_click 8) 10 1 Hwf)).
Defined.

(** C8 fails on [is_valid_move] as stated: after a first click on (8,0) the
    position (10,1) is a knight's move away and past the last row, and the
    indexing raises. *)
Lemma is_valid_move_raises :
  reachable 1 (first_click 8) ∧
  last_clicked (first_click 8) = Some (8, 0) ∧
  in_grid (first_click 8) 10 1 = false ∧
  is_valid_move (first_click 8) 10 1 = Raise IndexError.
Proof.
  split; [apply first_click_reachable; lia|]. by vm_compute.
Qed.

Lemma has_valid_moves_iff_witness :
  wf_grid (first_click 0) ∧
  ∃ b, has_valid_moves (first_click 0) = Ok b ∧
       (b = true ↔
          last_clicked (first_click 0) = None ∨
          ∃ last i j, last_clicked (first_click 0) = Some last ∧
                      cell (first_click 0) i j = Some 0 ∧ knight_apart last (i, j)) ∧
       (last_clicked (first_click 0) = None → b = true).
Proof.
  assert (wf_grid (first_click 0)) as Hwf by (apply first_click_wf; lia).
  split; [exact Hwf|]. exact (has_valid_moves_iff (first_click 0) Hwf).
Defined.

(** * The tour estimator *)

(** ** Knight neighbours: the list of the code and the set of the spec *)

Lemma knight_shape_spec a b :
  knight_shape a b = true ↔ a = 2 ∧ b = 1 ∨ a = 1 ∧ b = 2.
Proof. unfold knight_shape. rewrite orb_true_iff, !andb_true_iff, !Z.eqb_eq. tauto. Qed.

Lemma elem_of_get_valid_neighbors g p visited q :
  q ∈ get_valid_neighbors g p visited ↔
  knight_apart p q ∧ in_grid g q.1 q.2 = true ∧ q ∉ visited.
Proof.
  destruct p as [row col], q as [r c]. unfold get_valid_neighbors, knight_apart.
  rewrite list_elem_of_filter, knight_shape_spec. simpl.
  rewrite !elem_of_cons, elem_of_nil. split.
  - intros [[Hin Hnot] Hmoves]. split; [|done].
    repeat destruct Hmoves as [Hmoves|Hmoves]; try done;
      injection Hmoves as -> ->; lia.
  - intros (Hk & Hin & Hnot). split; [done|].
    assert ((r = row + 2 ∧ c = col + 1) ∨ (r = row + 2 ∧ c = col - 1) ∨
            (r = row - 2 ∧ c = col + 1) ∨ (r = row - 2 ∧ c = col - 1) ∨
            (r = row + 1 ∧ c = col + 2) ∨ (r = row + 1 ∧ c = col - 2) ∨
            (r = row - 1 ∧ c = col + 2) ∨ (r = row - 1 ∧ c = col - 2))
      as Hcases by lia.
    repeat destruct Hcases as [[-> ->]|Hcases]; auto 10.
    destruct Hcases as [-> ->]. auto 10.
Qed.

Lemma NoDup_get_valid_neighbors g p visited :
  NoDup (get_valid_neighbors g p visited).
Proof.
  destruct p as [row col]. unfold get_valid_neighbors. apply NoDup_filter.
  repeat (apply NoDup_cons; split;
    [rewrite ?elem_of_cons, elem_of_nil; intros H;
     repeat destruct H as [H|H]; try done; injection H; lia|]).
  apply NoDup_nil_2.
Qed.

Lemma elem_of_cells_list g q : q ∈ cells_list g ↔ in_grid g q.1 q.2 = true.
Proof.
  unfold cells_list. rewrite in_grid_spec, list_elem_of_bind. split.
  - intros (i & (j & Hq & Hj)%list_elem_of_bind & Hi).
    apply list_elem_of_singleton in Hq as ->. simpl.
    by apply elem_of_range in Hi, Hj.
  - intros [Hi Hj]. exists q.1. split; [|by apply elem_of_range].
    apply list_elem_of_bind. exists q.2. split; [|by apply elem_of_range].
    destruct q. by apply list_elem_of_singleton.
Qed.

Lemma elem_of_all_cells g q : q ∈ all_cells g ↔ in_grid g q.1 q.2 = true.
Proof. unfold all_cells. by rewrite elem_of_list_to_set, elem_of_cells_list. Qed.

Lemma elem_of_unvisited_neighbors g visited p q :
  q ∈ unvisited_neighbors g visited p ↔
  knight_apart p q ∧ in_grid g q.1 q.2 = true ∧ q ∉ visited.
Proof.
  unfold unvisited_neighbors. rewrite elem_of_filter, elem_of_all_cells. tauto.
Qed.

Lemma unvisited_neighbors_list g visited p :
  unvisited_neighbors g visited p = list_to_set (get_valid_neighbors g p visited).
Proof.
  apply set_eq. intros q.
  by rewrite elem_of_list_to_set, elem_of_unvisited_neighbors,
    elem_of_get_valid_neighbors.
Qed.

Lemma degree_length g visited p :
  degree g visited p = length (get_valid_neighbors g p visited).
Proof.
  unfold degree. rewrite unvisited_neighbors_list.
  apply size_list_to_set, NoDup_get_valid_neighbors.
Qed.

(** ** [min] with a key *)

Lemma min_from_elem {A} (key : A → nat) best (l : list A) :
  Py.min_from key best l ∈ best :: l.
Proof.
  revert best. induction l as [|x l IH]; intros best; simpl.
  - apply list_elem_of_here.
  - destruct (key x <? key best)%nat.
    + apply list_elem_of_further, IH.
    + specialize (IH best). apply elem_of_cons in IH as [->|IH].
      * apply list_elem_of_here.
      * by do 2 apply list_elem_of_further.
Qed.

Lemma min_from_le {A} (key : A → nat) best (l : list A) x :
  x ∈ best :: l → (key (Py.min_from key best l) ≤ key x)%nat.
Proof.
  revert best x. induction l as [|y l IH]; intros best x Hx; simpl.
  - apply list_elem_of_singleton in Hx as ->. lia.
  - destruct (Nat.ltb_spec (key y) (key best)).
    + apply elem_of_cons in Hx as [->|Hx]; [|by apply IH].
      etrans; [apply (IH y y), list_elem_of_here|lia].
    + apply elem_of_cons in Hx as [->|Hx]; [apply IH, list_elem_of_here|].
      apply elem_of_cons in Hx as [->|Hx].
      * etrans; [apply (IH best best), list_elem_of_here|lia].
      * by apply IH, list_elem_of_further.
Qed.

(** ** The loop of [warnsdorff_tour] ends and follows Warnsdorff's rule *)

Lemma size_list_to_set_le (l : list position) :
  (size (list_to_set l : gset position) ≤ length l)%nat.
Proof.
  induction l as [|x l IH].
  - by rewrite list_to_set_nil, size_empty.
  - rewrite list_to_set_cons, size_union_alt, size_singleton. simpl.
    pose proof (subseteq_size (list_to_set l ∖ {[x]}) (list_to_set l : gset position)) as Hle.
    specialize (Hle ltac:(set_solver)). lia.
Qed.

Lemma length_bind_const {A B} (f : A → list B) (l : list A) (c : nat) :
  (∀ x, length (f x) = c) → length (l ≫= f) = (length l * c)%nat.
Proof.
  intros Hf. induction l as [|x l IH]; [done|].
  rewrite bind_cons, length_app, Hf, IH. simpl. lia.
Qed.

Lemma length_cells_list g :
  length (cells_list g) = (Z.to_nat (grid_size_y g) * Z.to_nat (grid_size_x g))%nat.
Proof.
  unfold cells_list.
  rewrite (length_bind_const _ _ (Z.to_nat (grid_size_x g))).
  - unfold Py.range. by rewrite length_seqZ.
  - intros i. rewrite (length_bind_const _ _ 1%nat) by done.
    unfold Py.range. rewrite length_seqZ. lia.
Qed.

Lemma size_all_cells g : (size (all_cells g) < tour_fuel g)%nat.
Proof.
  unfold tour_fuel, all_cells. rewrite <- length_cells_list.
  pose proof (size_list_to_set_le (cells_list g)). lia.
Qed.

(** With more fuel than the grid has unvisited cells the loop returns, and
    the moves it made are a run of the procedure. *)
Lemma warnsdorff_loop_run g fuel visited pos :
  (size (all_cells g ∖ visited) < fuel)%nat →
  ∃ n, warnsdorff_loop g fuel visited pos = Ok n ∧ warnsdorff_run g visited pos n.
Proof.
  revert visited pos. induction fuel as [|fuel IH]; intros visited pos Hfuel; [lia|].
  simpl. destruct (get_valid_neighbors g pos visited) as [|x l] eqn:Hnb.
  - exists (size visited). split; [done|]. apply run_stop.
    by rewrite unvisited_neighbors_list, Hnb.
  - simpl.
    set (next := Py.min_from (λ x, length (get_valid_neighbors g x visited)) x l).
    assert (next ∈ get_valid_neighbors g pos visited) as Hnext.
    { rewrite Hnb. apply min_from_elem. }
    pose proof Hnext as (Hk & Hin & Hnew)%elem_of_get_valid_neighbors.
    destruct (IH (visited ∪ {[next]}) next) as (n & Hloop & Hrun).
    { assert (all_cells g ∖ (visited ∪ {[next]}) ⊂ all_cells g ∖ visited) as Hsub.
      { apply elem_of_all_cells in Hin. set_solver. }
      apply subset_size in Hsub. lia. }
    exists n. split; [done|].
    apply (run_move g visited pos next n); [|clear Hloop|done].
    + by apply elem_of_unvisited_neighbors.
    + intros q Hq. rewrite !degree_length.
      apply (min_from_le (λ x, length (get_valid_neighbors g x visited)) x l q).
      rewrite <- Hnb. by rewrite unvisited_neighbors_list, elem_of_list_to_set in Hq.
Qed.

Lemma warnsdorff_tour_run g s :
  ∃ n, warnsdorff_tour g s = Ok n ∧ warnsdorff_run g {[s]} s n.
Proof.
  apply warnsdorff_loop_run.
  pose proof (size_all_cells g).
  pose proof (subseteq_size (all_cells g ∖ {[s]}) (all_cells g)) as Hle.
  specialize (Hle ltac:(set_solver)). lia.
Qed.

(** More fuel than needed changes nothing. *)
Lemma warnsdorff_loop_fuel g fuel fuel' visited pos n :
  warnsdorff_loop g fuel visited pos = Ok n → (fuel ≤ fuel')%nat →
  warnsdorff_loop g fuel' visited pos = Ok n.
Proof.
  revert fuel' visited pos. induction fuel as [|fuel IH]; intros fuel' visited pos; [done|].
  destruct fuel' as [|fuel']; [lia|]. simpl.
  destruct (get_valid_neighbors g pos visited) as [|x l]; [done|]. simpl.
  intros Hloop Hle. apply IH; [done|lia].
Qed.

(** ** The two [for] loops of [calculate_max_moves] *)

Lemma for_in_app {A S R} (xs ys : list A) (body : A → S → outcome (Py.flow S R)) s :
  Py.for_in (xs ++ ys) body s =
    match Py.for_in xs body s with
    | Ok (Py.Continue s') => Py.for_in ys body s'
    | other => other
    end.
Proof.
  revert s. induction xs as [|x xs IH]; intros s; [done|].
  simpl. destruct (body x s) as [[s'|r]| |]; [apply IH|done..].
Qed.

Lemma for_in_fmap {A B S R} (f : A → B) (xs : list A)
    (body : B → S → outcome (Py.flow S R)) s :
  Py.for_in (f <$> xs) body s = Py.for_in xs (λ x, body (f x)) s.
Proof.
  revert s. induction xs as [|x xs IH]; intros s; [done|].
  simpl. destruct (body (f x) s) as [[s'|r]| |]; [apply IH|done..].
Qed.

Lemma for_in_cells g {S R} (body : position → S → outcome (Py.flow S R)) s :
  Py.for_in (Py.range (grid_size_y g))
    (λ i s, Py.for_in (Py.range (grid_size_x g)) (λ j s, body (i, j) s) s) s =
  Py.for_in (cells_list g) body s.
Proof.
  unfold cells_list. generalize (Py.range (grid_size_y g)) as rows. intros rows.
  revert s. induction rows as [|i rows IH]; intros s; [done|].
  rewrite bind_cons, for_in_app. simpl.
  replace (Py.range (grid_size_x g) ≫= λ j, [(i, j)])
    with ((λ j, (i, j)) <$> Py.range (grid_size_x g)).
  - rewrite for_in_fmap.
    destruct (Py.for_in (Py.range (grid_size_x g)) _ s) as [[s'|r]| |]; [apply IH|done..].
  - generalize (Py.range (grid_size_x g)) as cols. intros cols.
    induction cols as [|j cols IHc]; [done|]. rewrite bind_cons. simpl. by f_equal.
Qed.

(** A loop that keeps a running maximum. *)
Lemma for_in_max {A} (xs : list A) (val : A → nat)
    (body : A → nat → outcome (Py.flow nat Empty_set)) m0 :
  (∀ x m, x ∈ xs → body x m = Ok (Py.Continue (Nat.max m (val x)))) →
  ∃ m, Py.for_in xs body m0 = Ok (Py.Continue m) ∧
       (m0 ≤ m)%nat ∧
       (∀ x, x ∈ xs → (val x ≤ m)%nat) ∧
       (m = m0 ∨ ∃ x, x ∈ xs ∧ val x = m).
Proof.
  revert m0. induction xs as [|x xs IH]; intros m0 Hbody.
  - exists m0. split; [done|]. split; [done|]. split; [|by left].
    intros x Hx. by apply elem_of_nil in Hx.
  - simpl. rewrite Hbody by apply list_elem_of_here.
    destruct (IH (Nat.max m0 (val x))) as (m & Hloop & Hge & Hall & Hex).
    { intros y m' Hy. apply Hbody. by apply list_elem_of_further. }
    exists m. split; [done|]. split; [lia|]. split.
    + intros y [->|Hy]%elem_of_cons; [lia|by apply Hall].
    + destruct Hex as [->|(y & Hy & Hval)].
      * destruct (Nat.max_spec m0 (val x)) as [[_ ->]|[_ ->]].
        -- right. exists x. split; [apply list_elem_of_here|done].
        -- by left.
      * right. exists y. split; [by apply list_elem_of_further|done].
Qed.

Lemma calculate_max_moves_cells g :
  calculate_max_moves g =
    f ← Py.for_in (R := Empty_set) (cells_list g) (λ s max_moves,
           moves ← warnsdorff_tour g s;
           Ok (Py.Continue (Nat.max max_moves moves))) 0%nat;
    match f with
    | Py.Continue max_moves => Ok max_moves
    | Py.Return r => match r : Empty_set with end
    end.
Proof.
  unfold calculate_max_moves.
  by rewrite (for_in_cells g (λ s max_moves,
    moves ← warnsdorff_tour g s; Ok (Py.Continue (Nat.max max_moves moves)))).
Qed.

(** The length of the tour from [s], as the code computes it. *)
Lemma calculate_max_moves_max g (len : position → nat) :
  (∀ s, warnsdorff_tour g s = Ok (len s)) →
  ∃ m, calculate_max_moves g = Ok m ∧
       (∀ s, in_grid g s.1 s.2 = true → (len s ≤ m)%nat) ∧
       (m = 0%nat ∨ ∃ s, in_grid g s.1 s.2 = true ∧ len s = m).
Proof.
  intros Hlen. rewrite calculate_max_moves_cells.
  destruct (for_in_max (cells_list g) len
    (λ s max_moves, moves ← warnsdorff_tour g s;
                    Ok (Py.Continue (Nat.max max_moves moves))) 0%nat)
    as (m & -> & _ & Hall & Hex).
  { intros s m _. by rewrite Hlen. }
  exists m. split; [done|]. split.
  - intros s Hs. apply Hall. by apply elem_of_cells_list.
  - destruct Hex as [->|(s & Hs & <-)]; [by left|]. right. exists s. split; [|done].
    by apply elem_of_cells_list.
Qed.

Lemma calculate_max_moves_total g : ∃ m, calculate_max_moves g = Ok m.
Proof.
  destruct (calculate_max_moves_max g
    (λ s, match warnsdorff_tour g s with Ok n => n | _ => 0%nat end))
    as (m & Hm & _).
  - intros s. by destruct (warnsdorff_tour_run g s) as (n & -> & _).
  - eauto.
Qed.

Lemma warnsdorff_run_size g visited pos n :
  warnsdorff_run g visited pos n → (size visited ≤ n)%nat.
Proof.
  induction 1 as [|visited current next n Hnext _ _ IH]; [done|].
  pose proof (subseteq_size visited (visited ∪ {[next]})) as Hle.
  specialize (Hle ltac:(set_solver)). lia.
Qed.

(** C4. On a grid with at least one row and one column
    [calculate_max_moves] returns the largest tour length over all starting
    cells, where the tour from a cell is a run of Warnsdorff's procedure:
    from the visited set holding the start alone, stop where the current
    cell has no unvisited in-bounds knight-neighbour and report the number
    of visited cells, otherwise move to such a neighbour that has the fewest
    unvisited in-bounds knight-neighbours of its own. On a 1x2 grid the
    result is 1. *)
Theorem calculate_max_moves_warnsdorff g :
  1 ≤ grid_size_y g → 1 ≤ grid_size_x g →
  ∃ (len : position → nat) (m : nat),
    (∀ s, warnsdorff_tour g s = Ok (len s) ∧ warnsdorff_run g {[s]} s (len s)) ∧
    calculate_max_moves g = Ok m ∧
    max_over_cells g len m ∧
    (grid_size_y g = 1 → grid_size_x g = 2 → m = 1%nat).
Proof.
  intros Hrows Hcols.
  set (len := λ s, match warnsdorff_tour g s with Ok n => n | _ => 0%nat end).
  assert (∀ s, warnsdorff_tour g s = Ok (len s) ∧ warnsdorff_run g {[s]} s (len s))
    as Htour.
  { intros s. unfold len. by destruct (warnsdorff_tour_run g s) as (n & -> & Hrun). }
  destruct (calculate_max_moves_max g len) as (m & Hm & Hall & Hex);
    [intros s; apply Htour|].
  assert (∃ s, in_grid g s.1 s.2 = true ∧ len s = m) as Hmax.
  { destruct Hex as [->|Hex]; [|done]. exfalso.
    assert (in_grid g 0 0 = true) as H00 by (apply in_grid_spec; lia).
    specialize (Hall (0, 0) H00).
    destruct (Htour (0, 0)) as [_ Hrun%warnsdorff_run_size].
    rewrite size_singleton in Hrun. lia. }
  exists len, m. split; [done|]. split; [done|]. split; [by split|].
  intros Hy Hx. destruct Hmax as (s & Hs & <-).
  destruct (Htour s) as [Hlen _]. unfold warnsdorff_tour, tour_fuel in Hlen.
  cbn [warnsdorff_loop] in Hlen.
  destruct (get_valid_neighbors g s {[s]}) as [|q l] eqn:Hnb.
  - rewrite size_singleton in Hlen. by injection Hlen.
  - clear Hlen. assert (q ∈ get_valid_neighbors g s {[s]}) as Hq
      by (rewrite Hnb; apply list_elem_of_here).
    apply elem_of_get_valid_neighbors in Hq as (Hk & Hq & _).
    apply in_grid_spec in Hs, Hq. unfold knight_apart in Hk.
    apply knight_shape_spec in Hk. lia.
Qed.

Lemma calculate_max_moves_warnsdorff_witness :
  1 ≤ grid_size_y fresh_10x5 ∧ 1 ≤ grid_size_x fresh_10x5 ∧
  ∃ (len : position → nat) (m : nat),
    (∀ s, warnsdorff_tour fresh_10x5 s = Ok (len s) ∧
          warnsdorff_run fresh_10x5 {[s]} s (len s)) ∧
    calculate_max_moves fresh_10x5 = Ok m ∧
    max_over_cells fresh_10x5 len m ∧
    (grid_size_y fresh_10x5 = 1 → grid_size_x fresh_10x5 = 2 → m = 1%nat).
Proof.
  assert (1 ≤ grid_size_y fresh_10x5) as Hy by (simpl; lia).
  assert (1 ≤ grid_size_x fresh_10x5) as Hx by (simpl; lia).
  split; [exact Hy|]. split; [exact Hx|].
  exact (calculate_max_moves_warnsdorff fresh_10x5 Hy Hx).
Defined.

(** ** [calculate_max_moves] reads the dimensions only *)

Section SameDimensions.
Context (g g' : GridGame).
Hypothesis (Hx : grid_size_x g = grid_size_x g') (Hy : grid_size_y g = grid_size_y g').

Lemma get_valid_neighbors_ext pos visited :
  get_valid_neighbors g pos visited = get_valid_neighbors g' pos visited.
Proof.
  destruct pos as [row col]. unfold get_valid_neighbors, in_grid.
  by rewrite Hx, Hy.
Qed.

Lemma warnsdorff_loop_ext fuel visited pos :
  warnsdorff_loop g fuel visited pos = warnsdorff_loop g' fuel visited pos.
Proof.
  revert visited pos. induction fuel as [|fuel IH]; intros visited pos; [done|].
  simpl. rewrite get_valid_neighbors_ext.
  destruct (get_valid_neighbors g' pos visited) as [|x l]; [done|]. simpl.
  replace (Py.min_from (λ x, length (get_valid_neighbors g x visited)) x l)
    with (Py.min_from (λ x, length (get_valid_neighbors g' x visited)) x l);
    [apply IH|].
  clear IH. revert x. induction l as [|y l IHl]; intros x; [done|]. simpl.
  rewrite !get_valid_neighbors_ext. by rewrite !IHl.
Qed.

Lemma warnsdorff_tour_ext s : warnsdorff_tour g s = warnsdorff_tour g' s.
Proof. unfold warnsdorff_tour, tour_fuel. rewrite Hx, Hy. apply warnsdorff_loop_ext. Qed.

Lemma cells_list_ext : cells_list g = cells_list g'.
Proof. unfold cells_list. by rewrite Hx, Hy. Qed.

Lemma calculate_max_moves_ext : calculate_max_moves g = calculate_max_moves g'.
Proof.
  rewrite !calculate_max_moves_cells, cells_list_ext.
  generalize (cells_list g') as cells, 0%nat. intros cells.
  assert (∀ m, Py.for_in (R := Empty_set) cells (λ s max_moves,
             moves ← warnsdorff_tour g s;
             Ok (Py.Continue (Nat.max max_moves moves))) m =
           Py.for_in cells (λ s max_moves,
             moves ← warnsdorff_tour g' s;
             Ok (Py.Continue (Nat.max max_moves moves))) m) as Hloops.
  { induction cells as [|s cells IH]; intros m; [done|]. simpl.
    rewrite warnsdorff_tour_ext.
    destruct (warnsdorff_tour g' s) as [n| |]; simpl; [apply IH|done..]. }
  intros m. by rewrite Hloops.
Qed.

Lemma cell_ext row col : grid g = grid g' → cell g row col = cell g' row col.
Proof. intros Hg. unfold cell, in_grid. by rewrite Hx, Hy, Hg. Qed.

End SameDimensions.

(** ** [reset_game] *)

Lemma fmap_const_replicate {A B} (c : B) (l : list A) :
  (λ _, c) <$> l = replicate (length l) c.
Proof. induction l as [|x l IH]; [done|]. simpl. by f_equal. Qed.

Lemma reset_game_Ok g :
  ∃ m, reset_game g =
    Ok (mkGridGame (cell_size g) (grid_size_x g) (grid_size_y g)
          (replicate (Z.to_nat (grid_size_y g))
             (replicate (Z.to_nat (grid_size_x g)) 0))
          1 None false m) ∧
       calculate_max_moves g = Ok m.
Proof.
  destruct (calculate_max_moves_total g) as [m Hm]. exists m. split; [|done].
  unfold reset_game.
  rewrite (calculate_max_moves_ext _ g) by done. rewrite Hm. simpl.
  rewrite !fmap_const_replicate. unfold Py.range. by rewrite !length_seqZ.
Qed.

Lemma cell_replicate g row col v :
  grid g = replicate (Z.to_nat (grid_size_y g)) (replicate (Z.to_nat (grid_size_x g)) 0) →
  cell g row col = Some v → v = 0.
Proof.
  intros Hg (_ & r & Hr & Hv)%cell_lookup. rewrite Hg in Hr.
  apply lookup_replicate in Hr as [-> _]. by apply lookup_replicate in Hv as [-> _].
Qed.

Lemma reset_game_inv g g' : reset_game g = Ok g' → game_inv 0 g'.
Proof.
  destruct (reset_game_Ok g) as (m & -> & Hm). intros [= <-]. split; simpl.
  - split; simpl; [by rewrite length_replicate|].
    apply Forall_replicate. by rewrite length_replicate.
  - done.
  - by rewrite <- Hm; apply calculate_max_moves_ext.
  - intros row col v Hv. apply cell_replicate in Hv; [lia|done].
  - intros v Hv. lia.
  - done.
Qed.

(** ** Events preserve the invariant *)

Lemma accepted_cell_free k g row col :
  game_inv k g → accepted g row col = true →
  game_over g = false ∧ in_grid g row col = true ∧ cell g row col = Some 0.
Proof.
  intros Hinv Hacc. unfold accepted in Hacc.
  apply andb_true_iff in Hacc as [Hover%negb_true_iff Hguard].
  destruct (move_guard g row col) as [b| |] eqn:Hb; [|done..]. subst b.
  pose proof (move_guard_in_grid _ _ _ Hb) as Hin.
  split; [done|]. split; [done|].
  destruct (cell_is_Some g row col (inv_wf _ _ Hinv) Hin) as [v Hv].
  pose proof (inv_last _ _ Hinv) as Hlast.
  destruct (last_clicked g) as [[last_row last_col]|] eqn:Hl.
  - rewrite (move_guard_cell _ _ _ _ _ _ Hl Hv) in Hb.
    injection Hb as [_ ->%Z.eqb_eq]%andb_true_iff. done.
  - pose proof (inv_range _ _ Hinv _ _ _ Hv). subst k.
    by replace v with 0 in Hv by lia.
Qed.

Lemma game_inv_updated k g row col :
  game_inv k g → in_grid g row col = true → cell g row col = Some 0 →
  game_inv (S k) (updated g row col).
Proof.
  intros Hinv Hin Hfree. pose proof (inv_wf _ _ Hinv) as Hwf.
  pose proof (inv_counter _ _ Hinv) as Hcnt.
  split.
  - by apply wf_updated.
  - simpl. lia.
  - transitivity (calculate_max_moves g);
      [by apply calculate_max_moves_ext|exact (inv_max _ _ Hinv)].
  - intros r c v. rewrite cell_updated by done.
    destruct (decide (r = row ∧ c = col)) as [_|_].
    + intros [= <-]. lia.
    + intros Hv%(inv_range _ _ Hinv). lia.
  - intros v Hv. destruct (decide (v = Z.of_nat k + 1)) as [->|Hne].
    + exists row, col. split.
      * rewrite cell_updated, decide_True by done. by rewrite Hcnt.
      * intros r c. rewrite cell_updated by done.
        destruct (decide (r = row ∧ c = col)) as [[-> ->]|_]; [done|].
        intros Hv'%(inv_range _ _ Hinv). lia.
    + destruct (inv_once _ _ Hinv v) as (r0 & c0 & Hv0 & Huniq); [lia|].
      exists r0, c0. split.
      * rewrite cell_updated, decide_False; [done| |done..].
        intros [-> ->]. rewrite Hfree in Hv0. injection Hv0. lia.
      * intros r c. rewrite cell_updated by done.
        destruct (decide (r = row ∧ c = col)) as [_|_]; [|by apply Huniq].
        intros [= Hc]. lia.
  - simpl. rewrite cell_updated, decide_True by done.
    split; [|lia]. f_equal. lia.
Qed.

Lemma game_inv_end_game k g : game_inv k g → game_inv k (end_game g).
Proof.
  intros [Hwf Hcnt Hmax Hrange Honce Hlast]. split; try done.
  transitivity (calculate_max_moves g); [by apply calculate_max_moves_ext|exact Hmax].
Qed.

(** An event that is neither an accepted click nor the reset key changes
    nothing. *)
Lemma handle_event_rejected g ev g' :
  wf_grid g → accepts g ev = false → is_reset ev = false →
  handle_event g ev = Ok g' → g' = g.
Proof.
  intros Hwf Hacc Hreset. destruct ev as [|[]|mouse_pos|]; simpl in *;
    try done; try by intros [= <-].
  destruct (game_over g) eqn:Hover; [by intros [= <-]|].
  destruct (get_cell_position g mouse_pos) as [[row col]| |]; [|done..]. simpl.
  pose proof (apply_move_cases g row col Hwf) as Hcases. rewrite Hacc in Hcases.
  rewrite Hcases. by intros [= <-].
Qed.

(** An accepted click lands on a free cell of the grid and leaves the
    updated state, flagged as over when no move is left. *)
Lemma handle_event_accepted k g ev g' :
  game_inv k g → accepts g ev = true → handle_event g ev = Ok g' →
  ∃ row col more,
    in_grid g row col = true ∧ cell g row col = Some 0 ∧
    has_valid_moves (updated g row col) = Ok more ∧
    g' = if more then updated g row col else end_game (updated g row col).
Proof.
  intros Hinv Hacc. destruct ev as [| |mouse_pos|]; simpl in *; try done.
  destruct (get_cell_position g mouse_pos) as [[row col]| |]; [|done..].
  destruct (accepted_cell_free _ _ _ _ Hinv Hacc) as (Hover & Hin & Hfree).
  rewrite Hover. simpl.
  pose proof (apply_move_cases g row col (inv_wf _ _ Hinv)) as Hcases.
  rewrite Hacc in Hcases. destruct Hcases as (_ & more & Hmore & ->).
  intros [= <-]. by exists row, col, more.
Qed.

Lemma reachable_inv k g : reachable k g → game_inv k g.
Proof.
  induction 1 as [cs x y g Hnew|k g g' _ _ Hreset|k g ev g' _ IH Hacc Hstep
                 |k g ev g' _ IH Hacc Hreset Hstep].
  - by eapply reset_game_inv.
  - by eapply reset_game_inv.
  - destruct (handle_event_accepted _ _ _ _ IH Hacc Hstep)
      as (row & col & more & Hin & Hfree & _ & ->).
    pose proof (game_inv_updated _ _ _ _ IH Hin Hfree).
    destruct more; [done|by apply game_inv_end_game].
  - by rewrite (handle_event_rejected _ _ _ (inv_wf _ _ IH) Hacc Hreset Hstep).
Qed.

Lemma new_game_3x3 : new_game 60 3 3 = Ok fresh_3x3.
Proof. vm_compute. reflexivity. Qed.

Lemma fresh_3x3_wf : wf_grid fresh_3x3.
Proof. split; [done|repeat constructor]. Qed.

(** * The terminal flag *)

(** C6. From a running game an event sets [game_over] exactly when it is a
    click that is accepted and [has_valid_moves] answers [False] on the
    state the click leaves; no other event sets it. Once it is set, the
    reset key, and nothing else, clears it. *)
Theorem game_over_set_by_accepted_move g ev g' :
  wf_grid g → handle_event g ev = Ok g' →
  (game_over g = false →
     (game_over g' = true ↔
        ∃ mouse_pos row col,
          ev = MOUSEBUTTONDOWN mouse_pos ∧
          get_cell_position g mouse_pos = Ok (row, col) ∧
          accepted g row col = true ∧
          has_valid_moves (updated g row col) = Ok false)) ∧
  (game_over g = true → (game_over g' = false ↔ is_reset ev = true)).
Proof.
  intros Hwf Hstep. split; intros Hover.
  - destruct (accepts g ev) eqn:Hacc.
    + destruct ev as [| |mouse_pos|]; simpl in Hacc, Hstep; try done.
      rewrite Hover in Hstep.
      destruct (get_cell_position g mouse_pos) as [[row col]| |] eqn:Hpos; [|done..].
      simpl in Hstep.
      pose proof (apply_move_cases g row col Hwf) as Hcases. rewrite Hacc in Hcases.
      destruct Hcases as (_ & more & Hmore & Happly).
      rewrite Happly in Hstep. injection Hstep as <-. split.
      * destruct more; simpl; [by rewrite Hover|]. intros _.
        by exists mouse_pos, row, col.
      * intros (p & r & c & [= <-] & Hpos' & _ & Hnone).
        rewrite Hpos in Hpos'. injection Hpos' as <- <-.
        rewrite Hmore in Hnone. by injection Hnone as ->.
    + split.
      * destruct (is_reset ev) eqn:Hreset.
        -- destruct ev as [|[]| |]; try done. simpl in Hstep.
           destruct (reset_game_Ok g) as (m & Hreset_ok & _).
           rewrite Hreset_ok in Hstep. by injection Hstep as <-.
        -- rewrite (handle_event_rejected _ _ _ Hwf Hacc Hreset Hstep).
           by rewrite Hover.
      * intros (p & r & c & -> & Hpos & Hacc' & _). simpl in Hacc.
        rewrite Hpos in Hacc. by rewrite Hacc in Hacc'.
  - destruct ev as [|[]|mouse_pos|]; simpl in *;
      try (injection Hstep as <-; by rewrite Hover).
    + destruct (reset_game_Ok g) as (m & Hreset_ok & _).
      rewrite Hreset_ok in Hstep. by injection Hstep as <-.
    + rewrite Hover in Hstep. injection Hstep as <-. by rewrite Hover.
Qed.

Lemma game_over_set_witness :
  wf_grid fresh_3x3 ∧
  handle_event fresh_3x3 (MOUSEBUTTONDOWN (60, 60)) =
    Ok (end_game (updated fresh_3x3 1 1)) ∧
  (game_over fresh_3x3 = false →
     (game_over (end_game (updated fresh_3x3 1 1)) = true ↔
        ∃ mouse_pos row col,
          MOUSEBUTTONDOWN (60, 60) = MOUSEBUTTONDOWN mouse_pos ∧
          get_cell_position fresh_3x3 mouse_pos = Ok (row, col) ∧
          accepted fresh_3x3 row col = true ∧
          has_valid_moves (updated fresh_3x3 row col) = Ok false)).
Proof.
  assert (handle_event fresh_3x3 (MOUSEBUTTONDOWN (60, 60)) =
            Ok (end_game (updated fresh_3x3 1 1))) as Hstep by reflexivity.
  split; [exact fresh_3x3_wf|]. split; [exact Hstep|].
  exact (proj1 (game_over_set_by_accepted_move fresh_3x3 (MOUSEBUTTONDOWN (60, 60))
                  (end_game (updated fresh_3x3 1 1)) fresh_3x3_wf Hstep)).
Defined.

(** * The counter and the numbered cells *)

(** C7. In a state reached by [k] accepted moves since the grid was last
    cleared the counter is [k + 1], the non-zero cell values are exactly
    1, ..., [k], and each of them is in exactly one cell; an accepted move
    adds 1 to the counter and a rejected one leaves it as it was. *)
Theorem counter_and_values k g :
  reachable k g →
  counter g = Z.of_nat k + 1 ∧
  (∀ row col v, cell g row col = Some v → v ≠ 0 → 1 ≤ v ≤ Z.of_nat k) ∧
  (∀ v, 1 ≤ v ≤ Z.of_nat k →
     ∃ row col, cell g row col = Some v ∧
       ∀ row' col', cell g row' col' = Some v → (row', col') = (row, col)) ∧
  (∀ ev g', handle_event g ev = Ok g' →
     (accepts g ev = true → counter g' = counter g + 1 ∧ reachable (S k) g') ∧
     (accepts g ev = false → is_reset ev = false → counter g' = counter g)).
Proof.
  intros Hreach. pose proof (reachable_inv _ _ Hreach) as Hinv.
  split; [exact (inv_counter _ _ Hinv)|]. split; [|split].
  - intros row col v Hv Hne. pose proof (inv_range _ _ Hinv _ _ _ Hv). lia.
  - exact (inv_once _ _ Hinv).
  - intros ev g' Hstep. split.
    + intros Hacc. split; [|by eapply reach_accept].
      destruct (handle_event_accepted _ _ _ _ Hinv Hacc Hstep)
        as (row & col & more & _ & _ & _ & ->).
      by destruct more.
    + intros Hacc Hreset.
      by rewrite (handle_event_rejected _ _ _ (inv_wf _ _ Hinv) Hacc Hreset Hstep).
Qed.

Lemma counter_and_values_witness :
  reachable 1 (first_click 0) ∧
  counter (first_click 0) = 2 ∧
  ∀ v, 1 ≤ v ≤ 1 →
    ∃ row col, cell (first_click 0) row col = Some v ∧
      ∀ row' col', cell (first_click 0) row' col' = Some v → (row', col') = (row, col).
Proof.
  assert (reachable 1 (first_click 0)) as Hreach by (apply first_click_reachable; lia).
  split; [exact Hreach|].
  pose proof (counter_and_values 1 (first_click 0) Hreach) as (Hcnt & _ & Honce & _).
  split; [exact Hcnt|exact Honce].
Defined.

(** * [reset_game] *)

(** C9. From every state [reset_game] returns a state with the same
    dimensions whose grid is all zeros, whose counter is 1, with no last
    clicked cell, not over, and whose maximum is what [calculate_max_moves]
    returns for the grid; from a reachable state that maximum is the one
    the state already showed. *)
Theorem reset_game_fresh g :
  ∃ g', reset_game g = Ok g' ∧
    grid_size_x g' = grid_size_x g ∧ grid_size_y g' = grid_size_y g ∧
    grid g' = replicate (Z.to_nat (grid_size_y g))
                (replicate (Z.to_nat (grid_size_x g)) 0) ∧
    (∀ row col, in_grid g' row col = true → cell g' row col = Some 0) ∧
    counter g' = 1 ∧ last_clicked g' = None ∧ game_over g' = false ∧
    calculate_max_moves g' = Ok (max_possible_moves g') ∧
    (∀ k, reachable k g → max_possible_moves g' = max_possible_moves g).
Proof.
  destruct (reset_game_Ok g) as (m & Hreset & Hm).
  eexists. split; [exact Hreset|]. simpl.
  pose proof (reset_game_inv _ _ Hreset) as Hinv.
  split; [done|]. split; [done|]. split; [done|]. split.
  - intros row col Hin.
    destruct (cell_is_Some _ row col (inv_wf _ _ Hinv) Hin) as [v Hv].
    rewrite Hv. f_equal. pose proof (inv_range _ _ Hinv _ _ _ Hv). simpl in *. lia.
  - split; [done|]. split; [done|]. split; [done|]. split.
    + exact (inv_max _ _ Hinv).
    + intros k Hreach%reachable_inv. pose proof (inv_max _ _ Hreach) as Hmax.
      rewrite Hm in Hmax. by injection Hmax.
Qed.

(** * The last clicked cell *)

(** C10. In every reachable state the last clicked cell, when there is one,
    is on the grid and holds [counter - 1], the largest value of the grid;
    right after a reset there is no last clicked cell and the counter is 1. *)
Theorem last_clicked_holds_latest k g :
  reachable k g →
  (∀ row col, last_clicked g = Some (row, col) →
     in_grid g row col = true ∧
     cell g row col = Some (counter g - 1) ∧
     ∀ r c v, cell g r c = Some v → v ≤ counter g - 1) ∧
  (∀ g', reset_game g = Ok g' → last_clicked g' = None ∧ counter g' = 1).
Proof.
  intros Hinv%reachable_inv. split.
  - intros row col Hlast. pose proof (inv_last _ _ Hinv) as Hcell.
    rewrite Hlast in Hcell. destruct Hcell as [Hcell _].
    rewrite (inv_counter _ _ Hinv).
    replace (Z.of_nat k + 1 - 1) with (Z.of_nat k) by lia.
    split; [by eapply cell_in_grid|]. split; [done|].
    intros r c v Hv%(inv_range _ _ Hinv). lia.
  - intros g'. destruct (reset_game_Ok g) as (m & -> & _). by intros [= <-].
Qed.

Lemma last_clicked_holds_latest_witness :
  reachable 1 (first_click 8) ∧
  ∀ row col, last_clicked (first_click 8) = Some (row, col) →
    in_grid (first_click 8) row col = true ∧
    cell (first_click 8) row col = Some (counter (first_click 8) - 1) ∧
    ∀ r c v, cell (first_click 8) r c = Some v → v ≤ counter (first_click 8) - 1.
Proof.
  assert (reachable 1 (first_click 8)) as Hreach by (apply first_click_reachable; lia).
  split; [exact Hreach|].
  exact (proj1 (last_clicked_holds_latest 1 (first_click 8) Hreach)).
Defined.

(** * The scenarios of the specification, run on the model *)

Example max_moves_1x2 :
  calculate_max_moves (mkGridGame 60 2 1 [] 0 None false 0) = Ok 1%nat.
Proof. vm_compute. reflexivity. Qed.

Example max_moves_10x5 : calculate_max_moves fresh_10x5 = Ok 50%nat.
Proof. vm_compute. reflexivity. Qed.

Example click_00_then_21 :
  play [MOUSEBUTTONDOWN (0, 0); MOUSEBUTTONDOWN (60, 120)] =
    Ok (updated (first_click 0) 2 1).
Proof. vm_compute. reflexivity. Qed.

Example click_00_then_11 :
  play [MOUSEBUTTONDOWN (0, 0); MOUSEBUTTONDOWN (60, 60)] = Ok (first_click 0).
Proof. vm_compute. reflexivity. Qed.

Example reset_after_moves :
  play [MOUSEBUTTONDOWN (0, 0); MOUSEBUTTONDOWN (60, 120); KEYDOWN K_r] =
    Ok fresh_10x5.
Proof. vm_compute. reflexivity. Qed.

(** * Further properties of the code *)

(** ** Pixels and cells *)

Lemma floordiv_cell a cs i :
  0 < cs → Py.floordiv a cs = Ok i ↔ i * cs ≤ a < (i + 1) * cs.
Proof.
  intros Hcs. unfold Py.floordiv.
  destruct (Z.eqb_spec cs 0) as [?|_]; [lia|]. split.
  - intros [= <-]. pose proof (Z.mul_div_le a cs Hcs).
    pose proof (Z.mul_succ_div_gt a cs Hcs). lia.
  - intros Hi. f_equal. symmetry.
    apply (Z.div_unique a cs i (a - i * cs)); lia.
Qed.

(** X1. [get_cell_position] sends a pixel to the cell whose drawn rectangle
    holds it, and to no other cell. *)
Theorem get_cell_position_rect g x y i j :
  0 < cell_size g →
  get_cell_position g (x, y) = Ok (i, j) ↔ in_rect (cell_rect g i j) (x, y) = true.
Proof.
  intros Hcs. unfold in_rect, cell_rect.
  rewrite !andb_true_iff, !Z.leb_le, !Z.ltb_lt.
  pose proof (floordiv_cell y (cell_size g) i Hcs) as Hrow.
  pose proof (floordiv_cell x (cell_size g) j Hcs) as Hcol.
  unfold get_cell_position, Py.floordiv in *.
  destruct (Z.eqb_spec (cell_size g) 0) as [?|_]; [lia|]. simpl. split.
  - intros [= <- <-]. destruct Hrow as [Hrow _], Hcol as [Hcol _].
    specialize (Hrow eq_refl). specialize (Hcol eq_refl). lia.
  - intros [Hj Hi]. destruct Hrow as [_ Hrow], Hcol as [_ Hcol].
    injection (Hrow ltac:(lia)) as ->. injection (Hcol ltac:(lia)) as ->. done.
Qed.

Lemma get_cell_position_rect_witness :
  0 < cell_size fresh_10x5 ∧
  (get_cell_position fresh_10x5 (75, 130) = Ok (2, 1) ↔
   in_rect (cell_rect fresh_10x5 2 1) (75, 130) = true).
Proof.
  assert (0 < cell_size fresh_10x5) as Hcs by (simpl; lia).
  split; [exact Hcs|]. exact (get_cell_position_rect fresh_10x5 75 130 2 1 Hcs).
Defined.

(** X2. A pixel of the window is converted to a cell without a fault; the cell
    is on the grid exactly when the pixel is above the strip of 60 pixels
    that holds the text, and a click in that strip changes nothing. *)
Theorem click_in_window g x y :
  0 < cell_size g → 0 ≤ x < width g → 0 ≤ y < height g →
  ∃ row col,
    get_cell_position g (x, y) = Ok (row, col) ∧
    (in_grid g row col = true ↔ y < height g - 60) ∧
    (height g - 60 ≤ y → handle_event g (MOUSEBUTTONDOWN (x, y)) = Ok g).
Proof.
  unfold width, height. intros Hcs Hx Hy.
  exists (y `div` cell_size g), (x `div` cell_size g).
  assert (get_cell_position g (x, y) =
            Ok (y `div` cell_size g, x `div` cell_size g)) as Hpos.
  { unfold get_cell_position, Py.floordiv.
    by destruct (Z.eqb_spec (cell_size g) 0) as [?|_]; [lia|]. }
  assert (0 ≤ y `div` cell_size g) by (apply Z.div_pos; lia).
  assert (0 ≤ x `div` cell_size g) by (apply Z.div_pos; lia).
  assert (x `div` cell_size g < grid_size_x g)
    by (apply Z.div_lt_upper_bound; lia).
  assert (in_grid g (y `div` cell_size g) (x `div` cell_size g) = true ↔
          y < cell_size g * grid_size_y g + 60 - 60) as Hin.
  { rewrite in_grid_spec. split.
    - intros [[_ Hrow] _]. pose proof (Z.mul_succ_div_gt y (cell_size g) Hcs). nia.
    - intros Hlt. split; [|lia]. split; [lia|].
      apply Z.div_lt_upper_bound; lia. }
  split; [done|]. split; [done|].
  intros Hstrip. unfold handle_event. destruct (game_over g); [done|].
  rewrite Hpos. simpl. apply apply_move_outside.
  destruct (in_grid g _ _); [|done]. destruct Hin as [Hin _]. specialize (Hin eq_refl). lia.
Qed.

Lemma click_in_window_witness :
  0 < cell_size fresh_10x5 ∧ 0 ≤ 10 < width fresh_10x5 ∧
  0 ≤ 620 < height fresh_10x5 ∧
  ∃ row col,
    get_cell_position fresh_10x5 (10, 620) = Ok (row, col) ∧
    (in_grid fresh_10x5 row col = true ↔ 620 < height fresh_10x5 - 60) ∧
    (height fresh_10x5 - 60 ≤ 620 →
       handle_event fresh_10x5 (MOUSEBUTTONDOWN (10, 620)) = Ok fresh_10x5).
Proof.
  assert (0 < cell_size fresh_10x5) as Hcs by (simpl; lia).
  assert (0 ≤ 10 < width fresh_10x5) as Hx by (vm_compute; split; discriminate || reflexivity).
  assert (0 ≤ 620 < height fresh_10x5) as Hy by (vm_compute; split; discriminate || reflexivity).
  split; [exact Hcs|]. split; [exact Hx|]. split; [exact Hy|].
  exact (click_in_window fresh_10x5 10 620 Hcs Hx Hy).
Defined.

(** ** The scan for a move and the guard of a click agree *)

Lemma move_guard_free g row col last_row last_col :
  wf_grid g → last_clicked g = Some (last_row, last_col) →
  move_guard g row col = Ok (free_knight_cell g (last_row, last_col) row col).
Proof.
  intros Hwf Hlast. destruct (in_grid g row col) eqn:Hin.
  - destruct (cell_is_Some g row col Hwf Hin) as [v Hv].
    rewrite (move_guard_cell _ _ _ _ _ _ Hlast Hv).
    unfold free_knight_cell. rewrite Hv. simpl. by rewrite andb_comm.
  - unfold move_guard, free_knight_cell, cell. by rewrite Hin.
Qed.

Lemma has_valid_moves_guard g last_row last_col :
  wf_grid g → last_clicked g = Some (last_row, last_col) →
  has_valid_moves g = Ok true ↔ ∃ row col, move_guard g row col = Ok true.
Proof.
  intros Hwf Hlast. rewrite (has_valid_moves_scan _ _ _ Hwf Hlast). split.
  - intros [= (i & j & _ & Hfree)%existsb_range_grid].
    exists i, j. by rewrite (move_guard_free _ _ _ _ _ Hwf Hlast), Hfree.
  - intros (row & col & Hguard). f_equal. apply existsb_range_grid.
    exists row, col. split; [by eapply move_guard_in_grid|].
    rewrite (move_guard_free _ _ _ _ _ Hwf Hlast) in Hguard. by injection Hguard.
Qed.

(** X3. After the first click [has_valid_moves] answers [True] exactly when the
    guard of a click holds for some cell, and [False] exactly when it fails
    for every position. *)
Theorem has_valid_moves_some_guard g :
  wf_grid g → last_clicked g ≠ None →
  (has_valid_moves g = Ok true ↔ ∃ row col, move_guard g row col = Ok true) ∧
  (has_valid_moves g = Ok false ↔ ∀ row col, move_guard g row col = Ok false).
Proof.
  intros Hwf Hlast.
  destruct (last_clicked g) as [[last_row last_col]|] eqn:Hl; [clear Hlast|done].
  pose proof (has_valid_moves_guard g _ _ Hwf Hl) as Hiff.
  split; [done|].
  destruct (has_valid_moves_total g Hwf) as [[] Hb]; rewrite Hb in *.
  - split; [done|]. intros Hnone.
    destruct Hiff as [(row & col & Hguard) _]; [done|].
    by rewrite Hnone in Hguard.
  - split; [|done]. intros _ row col.
    destruct (move_guard_total g row col Hwf) as [[] Hguard]; [|done].
    destruct Hiff as [_ Hiff]. by specialize (Hiff ltac:(eauto)).
Qed.

Lemma has_valid_moves_some_guard_witness :
  wf_grid (first_click 0) ∧ last_clicked (first_click 0) ≠ None ∧
  (has_valid_moves (first_click 0) = Ok true ↔
   ∃ row col, move_guard (first_click 0) row col = Ok true).
Proof.
  assert (wf_grid (first_click 0)) as Hwf by (apply first_click_wf; lia).
  assert (last_clicked (first_click 0) ≠ None) as Hlast by discriminate.
  split; [exact Hwf|]. split; [exact Hlast|].
  exact (proj1 (has_valid_moves_some_guard (first_click 0) Hwf Hlast)).
Defined.

(** ** The hint drawn on the grid *)

(** X4. On a well-formed state the drawing pass fills every cell of the grid
    without a fault: pink exactly when the game is over, and green exactly
    when a cell was clicked before and a click on this cell would be
    accepted. Before the first click no cell is green. *)
Theorem cell_fill_hint g i j :
  wf_grid g → in_grid g i j = true →
  ∃ c, cell_fill g i j = Ok c ∧
       (c = pink ↔ game_over g = true) ∧
       (c = green ↔ last_clicked g ≠ None ∧ accepted g i j = true).
Proof.
  intros Hwf Hin. unfold cell_fill, accepted.
  destruct (game_over g).
  { exists pink. split; [done|]. split; [done|]. split; [done|]. by intros [_ ?]. }
  simpl. destruct (last_clicked g) as [[last_row last_col]|] eqn:Hlast.
  - destruct (cell_is_Some g i j Hwf Hin) as [v Hv].
    rewrite (move_guard_cell _ _ _ _ _ _ Hlast Hv), (grid_get_cell _ _ _ _ Hv).
    destruct (knight_shape _ _); simpl.
    + destruct (v =? 0); eexists; (split; [done|]); split; try done;
        split; try done; by intros [_ ?].
    + exists white. split; [done|]. split; [done|]. split; [done|]. by intros [_ ?].
  - exists white. split; [done|]. split; [done|]. split; [done|]. by intros [? _].
Qed.

Lemma cell_fill_hint_witness :
  wf_grid (first_click 0) ∧ in_grid (first_click 0) 2 1 = true ∧
  ∃ c, cell_fill (first_click 0) 2 1 = Ok c ∧
       (c = pink ↔ game_over (first_click 0) = true) ∧
       (c = green ↔ last_clicked (first_click 0) ≠ None ∧
                    accepted (first_click 0) 2 1 = true).
Proof.
  assert (wf_grid (first_click 0)) as Hwf by (apply first_click_wf; lia).
  assert (in_grid (first_click 0) 2 1 = true) as Hin by reflexivity.
  split; [exact Hwf|]. split; [exact Hin|].
  exact (cell_fill_hint (first_click 0) 2 1 Hwf Hin).
Defined.

(** ** The flag of the reachable states *)

Lemma accepts_running g ev : accepts g ev = true → game_over g = false.
Proof.
  destruct ev as [| |mouse_pos|]; simpl; try done.
  destruct (get_cell_position g mouse_pos) as [[row col]| |]; [|done..].
  unfold accepted. by destruct (game_over g).
Qed.

Lemma reachable_flag k g :
  reachable k g → has_valid_moves g = Ok (negb (game_over g)).
Proof.
  intros Hreach. pose proof Hreach as Hr.
  induction Hr as [cs x y g Hnew|k g g' Hprev _ Hreset|k g ev g' Hprev _ Hacc Hstep
                  |k g ev g' Hprev IH Hacc Hreset Hstep].
  - unfold new_game in Hnew.
    destruct (reset_game_Ok (mkGridGame cs x y [] 0 None false 0)) as (m & Heq & _).
    rewrite Heq in Hnew. by injection Hnew as <-.
  - simpl in Hreset. destruct (reset_game_Ok g) as (m & Heq & _).
    rewrite Heq in Hreset. by injection Hreset as <-.
  - pose proof (reachable_inv _ _ Hprev) as Hinv.
    destruct (handle_event_accepted _ _ _ _ Hinv Hacc Hstep)
      as (row & col & more & _ & _ & Hmore & ->).
    pose proof (accepts_running _ _ Hacc) as Hover.
    destruct more; [|exact Hmore].
    rewrite Hmore. simpl. by rewrite Hover.
  - pose proof (reachable_inv _ _ Hprev) as Hinv.
    rewrite (handle_event_rejected _ _ _ (inv_wf _ _ Hinv) Hacc Hreset Hstep).
    by apply IH.
Qed.



(** X6. Before the first click of a reachable state the game is not over and a
    click is accepted on every cell of the grid and nowhere else. *)
Theorem first_click_anywhere k g row col :
  reachable k g → last_clicked g = None →
  k = 0%nat ∧ game_over g = false ∧ accepted g row col = in_grid g row col.
Proof.
  intros Hreach Hlast. pose proof (reachable_flag _ _ Hreach) as Hflag.
  pose proof (inv_last _ _ (reachable_inv _ _ Hreach)) as Hk.
  rewrite Hlast in Hk. split; [done|].
  unfold has_valid_moves in Hflag. rewrite Hlast in Hflag.
  assert (game_over g = false) as Hover by (by destruct (game_over g)).
  split; [done|]. unfold accepted, move_guard.
  rewrite Hover, is_valid_move_none by done. by destruct (in_grid g row col).
Qed.

Lemma first_click_anywhere_witness :
  reachable 0 fresh_10x5 ∧ last_clicked fresh_10x5 = None ∧
  accepted fresh_10x5 9 4 = in_grid fresh_10x5 9 4.
Proof.
  assert (reachable 0 fresh_10x5) as Hreach
    by (apply (reach_new 60 5 10); exact init_fresh).
  split; [exact Hreach|]. split; [reflexivity|].
  exact (proj2 (proj2 (first_click_anywhere 0 fresh_10x5 9 4 Hreach eq_refl))).
Defined.

(** ** What an event changes *)

Lemma handle_event_cases g ev g' :
  wf_grid g → is_reset ev = false → handle_event g ev = Ok g' →
  (accepts g ev = false ∧ g' = g) ∨
  (accepts g ev = true ∧
   ∃ row col, in_grid g row col = true ∧ accepted g row col = true ∧
     (g' = updated g row col ∨ g' = end_game (updated g row col))).
Proof.
  intros Hwf Hreset Hstep. destruct (accepts g ev) eqn:Hacc.
  - right. split; [done|].
    destruct ev as [| |mouse_pos|]; simpl in Hacc, Hstep; try done.
    destruct (get_cell_position g mouse_pos) as [[row col]| |]; [|done..].
    assert (game_over g = false) as Hover
      by (unfold accepted in Hacc; by destruct (game_over g)).
    rewrite Hover in Hstep. simpl in Hstep.
    pose proof (apply_move_cases g row col Hwf) as Hcases. rewrite Hacc in Hcases.
    destruct Hcases as (Hin & more & _ & Happly). rewrite Happly in Hstep.
    injection Hstep as <-. exists row, col. split; [done|]. split; [done|].
    destruct more; auto.
  - left. split; [done|]. by eapply handle_event_rejected.
Qed.

(** X7. Every event keeps the cell size and the dimensions and leaves a grid of
    that many rows and columns; every event but the reset key keeps the
    displayed maximum. *)
Theorem handle_event_shape g ev g' :
  wf_grid g → handle_event g ev = Ok g' →
  wf_grid g' ∧ cell_size g' = cell_size g ∧
  grid_size_x g' = grid_size_x g ∧ grid_size_y g' = grid_size_y g ∧
  (is_reset ev = false → max_possible_moves g' = max_possible_moves g).
Proof.
  intros Hwf Hstep. destruct (is_reset ev) eqn:Hreset.
  - destruct ev as [|[]| |]; try done. simpl in Hstep.
    pose proof (inv_wf _ _ (reset_game_inv _ _ Hstep)) as Hwf'.
    destruct (reset_game_Ok g) as (m & Heq & _). rewrite Heq in Hstep.
    injection Hstep as <-. by split.
  - destruct (handle_event_cases _ _ _ Hwf Hreset Hstep)
      as [[_ ->]|(_ & row & col & _ & _ & [->| ->])]; [done| |].
    + split; [by apply wf_updated|done].
    + split; [|done]. by apply (wf_updated g row col).
Qed.

Lemma handle_event_shape_witness :
  wf_grid fresh_3x3 ∧
  handle_event fresh_3x3 (MOUSEBUTTONDOWN (60, 60)) =
    Ok (end_game (updated fresh_3x3 1 1)) ∧
  wf_grid (end_game (updated fresh_3x3 1 1)).
Proof.
  assert (handle_event fresh_3x3 (MOUSEBUTTONDOWN (60, 60)) =
            Ok (end_game (updated fresh_3x3 1 1))) as Hstep by reflexivity.
  split; [exact fresh_3x3_wf|]. split; [exact Hstep|].
  exact (proj1 (handle_event_shape fresh_3x3 (MOUSEBUTTONDOWN (60, 60))
                  (end_game (updated fresh_3x3 1 1)) fresh_3x3_wf Hstep)).
Defined.

(** X8. In a reachable state no event but the reset key changes a numbered
    cell; an accepted click writes the counter into one cell that held 0,
    makes it the last clicked cell and leaves every other cell as it was. *)
Theorem numbered_cells_kept k g ev g' :
  reachable k g → is_reset ev = false → handle_event g ev = Ok g' →
  (∀ row col v, cell g row col = Some v → v ≠ 0 → cell g' row col = Some v) ∧
  (accepts g ev = true →
     ∃ row col,
       cell g row col = Some 0 ∧ cell g' row col = Some (counter g) ∧
       last_clicked g' = Some (row, col) ∧
       ∀ r c, (r, c) ≠ (row, col) → cell g' r c = cell g r c).
Proof.
  intros Hinv%reachable_inv Hreset Hstep. pose proof (inv_wf _ _ Hinv) as Hwf.
  destruct (handle_event_cases _ _ _ Hwf Hreset Hstep)
    as [[Hacc ->]|(Hacc & row & col & Hin & Haccepted & Hg')].
  { split; [done|]. by rewrite Hacc. }
  destruct (accepted_cell_free _ _ _ _ Hinv Haccepted) as (_ & _ & Hfree).
  assert (∀ r c, cell g' r c = cell (updated g row col) r c) as Hcell.
  { intros r c. by destruct Hg' as [->| ->]. }
  assert (last_clicked g' = Some (row, col)) as Hlast
    by (by destruct Hg' as [->| ->]).
  split.
  - intros r c v Hv Hne. rewrite Hcell, cell_updated by done.
    rewrite decide_False; [done|]. intros [-> ->].
    rewrite Hfree in Hv. by injection Hv as <-.
  - intros _. exists row, col. split; [done|]. split; [|split; [done|]].
    + rewrite Hcell, cell_updated by done. by rewrite decide_True.
    + intros r c Hne. rewrite Hcell, cell_updated by done.
      rewrite decide_False; [done|]. intros [-> ->]. done.
Qed.

Lemma numbered_cells_kept_witness :
  reachable 1 (first_click 0) ∧
  is_reset (MOUSEBUTTONDOWN (60, 120)) = false ∧
  handle_event (first_click 0) (MOUSEBUTTONDOWN (60, 120)) =
    Ok (updated (first_click 0) 2 1) ∧
  ∀ row col v, cell (first_click 0) row col = Some v → v ≠ 0 →
               cell (updated (first_click 0) 2 1) row col = Some v.
Proof.
  assert (reachable 1 (first_click 0)) as Hreach by (apply first_click_reachable; lia).
  assert (handle_event (first_click 0) (MOUSEBUTTONDOWN (60, 120)) =
            Ok (updated (first_click 0) 2 1)) as Hstep by (vm_compute; reflexivity).
  split; [exact Hreach|]. split; [reflexivity|]. split; [exact Hstep|].
  exact (proj1 (numbered_cells_kept 1 (first_click 0) (MOUSEBUTTONDOWN (60, 120))
                  (updated (first_click 0) 2 1) Hreach eq_refl Hstep)).
Defined.

(** ** The number of moves *)

Lemma numbered_positions k g j :
  game_inv k g → (j ≤ k)%nat →
  ∃ l : list position,
    length l = j ∧ NoDup l ∧
    ∀ p, p ∈ l → ∃ v, 1 ≤ v ≤ Z.of_nat j ∧ cell g p.1 p.2 = Some v.
Proof.
  intros Hinv. induction j as [|j IH]; intros Hj.
  - exists []. split; [done|]. split; [constructor|].
    intros p Hp. by apply elem_of_nil in Hp.
  - destruct IH as (l & Hlen & Hnodup & Hl); [lia|].
    destruct (inv_once _ _ Hinv (Z.of_nat (S j))) as (row & col & Hcell & _); [lia|].
    exists ((row, col) :: l). split; [by rewrite <- Hlen|]. split.
    + constructor; [|done]. intros (v & Hv & Hcell')%Hl. simpl in Hcell'.
      rewrite Hcell in Hcell'. injection Hcell'. lia.
    + intros p [->|Hp]%elem_of_cons.
      * exists (Z.of_nat (S j)). split; [lia|done].
      * destruct (Hl p Hp) as (v & Hv & Hcell'). exists v. split; [lia|done].
Qed.

(** X9. In a reachable state the number of moves made, [counter - 1], is at
    most the number of cells of the grid; when the game is over it is at
    least 1 and the line of text shows it beside the maximum. *)
Theorem moves_bounded k g :
  reachable k g →
  counter g - 1 = Z.of_nat k ∧
  (k ≤ Z.to_nat (grid_size_y g) * Z.to_nat (grid_size_x g))%nat ∧
  (game_over g = true →
     (1 ≤ k)%nat ∧
     moves_text g = GameOverLine (Z.of_nat k) (max_possible_moves g)).
Proof.
  intros Hreach. pose proof (reachable_inv _ _ Hreach) as Hinv.
  pose proof (inv_counter _ _ Hinv) as Hcnt. split; [lia|]. split.
  - destruct (numbered_positions k g k Hinv) as (l & <- & Hnodup & Hl); [lia|].
    rewrite <- length_cells_list. apply submseteq_length, NoDup_submseteq; [done|].
    intros p (v & _ & Hcell%cell_in_grid)%Hl. by apply elem_of_cells_list.
  - intros Hover. split.
    + pose proof (reachable_flag _ _ Hreach) as Hflag.
      pose proof (inv_last _ _ Hinv) as Hlast.
      destruct (last_clicked g) as [[row col]|] eqn:Hl; [lia|].
      unfold has_valid_moves in Hflag. by rewrite Hl, Hover in Hflag.
    + unfold moves_text. rewrite Hover. f_equal. lia.
Qed.

Lemma moves_bounded_witness :
  reachable 1 (first_click 0) ∧
  counter (first_click 0) - 1 = Z.of_nat 1 ∧
  (1 ≤ Z.to_nat (grid_size_y (first_click 0)) *
       Z.to_nat (grid_size_x (first_click 0)))%nat.
Proof.
  assert (reachable 1 (first_click 0)) as Hreach by (apply first_click_reachable; lia).
  split; [exact Hreach|].
  pose proof (moves_bounded 1 (first_click 0) Hreach) as (Hcnt & Hle & _).
  split; [exact Hcnt|exact Hle].
Defined.

(** ** Bounds on the estimate *)

Lemma warnsdorff_run_bounded g visited pos n :
  warnsdorff_run g visited pos n → visited ⊆ all_cells g →
  (n ≤ size (all_cells g))%nat.
Proof.
  induction 1 as [visited current _|visited current next n Hnext _ _ IH]; intros Hsub.
  - by apply subseteq_size.
  - apply IH. apply elem_of_unvisited_neighbors in Hnext as (_ & Hin & _).
    apply elem_of_all_cells in Hin. set_solver.
Qed.

(** X10. [calculate_max_moves] returns a number that is at most the number of
    cells of the grid, at least 1 when the grid has a cell, and 0 when it
    has none. *)
Theorem calculate_max_moves_bounds g :
  ∃ m, calculate_max_moves g = Ok m ∧
       (m ≤ Z.to_nat (grid_size_y g) * Z.to_nat (grid_size_x g))%nat ∧
       (1 ≤ grid_size_y g → 1 ≤ grid_size_x g → (1 ≤ m)%nat) ∧
       (grid_size_y g ≤ 0 ∨ grid_size_x g ≤ 0 → m = 0%nat).
Proof.
  set (len := λ s, match warnsdorff_tour g s with Ok n => n | _ => 0%nat end).
  assert (∀ s, warnsdorff_tour g s = Ok (len s) ∧ warnsdorff_run g {[s]} s (len s))
    as Htour.
  { intros s. unfold len. by destruct (warnsdorff_tour_run g s) as (n & -> & Hrun). }
  destruct (calculate_max_moves_max g len) as (m & Hm & Hall & Hex);
    [intros s; apply Htour|].
  exists m. split; [done|]. split; [|split].
  - destruct Hex as [->|(s & Hs & <-)]; [lia|].
    destruct (Htour s) as [_ Hrun]. apply warnsdorff_run_bounded in Hrun.
    + pose proof (size_list_to_set_le (cells_list g)) as Hle.
      rewrite length_cells_list in Hle. unfold all_cells in Hrun. lia.
    + apply elem_of_all_cells in Hs. set_solver.
  - intros Hy Hx.
    assert (in_grid g 0 0 = true) as H00 by (apply in_grid_spec; lia).
    specialize (Hall (0, 0) H00).
    destruct (Htour (0, 0)) as [_ Hrun%warnsdorff_run_size].
    rewrite size_singleton in Hrun. lia.
  - intros Hempty. destruct Hex as [->|(s & Hs%in_grid_spec & _)]; [done|lia].
Qed.

(** ** The estimate is reached by a game *)

Lemma get_cell_position_click_on g row col :
  cell_size g ≠ 0 →
  get_cell_position g (col * cell_size g, row * cell_size g) = Ok (row, col).
Proof.
  intros Hcs. unfold get_cell_position, Py.floordiv.
  destruct (Z.eqb_spec (cell_size g) 0) as [?|_]; [done|]. simpl.
  by rewrite !Z.div_mul.
Qed.

(** A click on an unvisited cell that the guard lets through extends the
    tour the game follows. *)
Lemma click_follows g0 g visited next :
  grid_size_x g = grid_size_x g0 → grid_size_y g = grid_size_y g0 →
  cell_size g ≠ 0 → wf_grid g →
  counter g = Z.of_nat (size visited) + 1 →
  (∀ row col v, cell g row col = Some v → (v = 0 ↔ (row, col) ∉ visited)) →
  next ∉ visited → accepted g next.1 next.2 = true →
  ∃ g', handle_event g (click_on g next.1 next.2) = Ok g' ∧
        follows g0 g' (visited ∪ {[next]}) next.
Proof.
  intros Hx Hy Hcs Hwf Hcnt Hcells Hnew Hacc. destruct next as [row col].
  simpl in Hacc.
  assert (game_over g = false) as Hover
    by (unfold accepted in Hacc; by destruct (game_over g)).
  pose proof (apply_move_cases g row col Hwf) as Hcases. rewrite Hacc in Hcases.
  destruct Hcases as (Hin & more & Hmore & Happly).
  eexists. split.
  { unfold handle_event, click_on. rewrite Hover. simpl fst. simpl snd.
    rewrite get_cell_position_click_on by done. simpl. exact Happly. }
  assert (size (visited ∪ {[(row, col)]}) = S (size visited)) as Hsize.
  { rewrite size_union by set_solver. rewrite size_singleton. lia. }
  assert (∀ r c v, cell (updated g row col) r c = Some v →
            (v = 0 ↔ (r, c) ∉ visited ∪ {[(row, col)]})) as Hcells'.
  { intros r c v. rewrite cell_updated by done.
    destruct (decide (r = row ∧ c = col)) as [[-> ->]|Hne].
    - intros [= <-]. split; [lia|set_solver].
    - intros Hv%Hcells. rewrite Hv. split; [|set_solver].
      intros Hnot [?|[= -> ->]%elem_of_singleton]%elem_of_union; [done|].
      by apply Hne. }
  pose proof (wf_updated g row col Hwf) as Hwf'.
  destruct more; split; try done; simpl; try lia.
  by rewrite Hmore, Hover.
Qed.

Lemma follows_stuck g0 g visited pos :
  follows g0 g visited pos → unvisited_neighbors g0 visited pos = ∅ →
  game_over g = true.
Proof.
  intros Hfol Hnone. pose proof (fol_over _ _ _ _ Hfol) as Hflag.
  destruct (game_over g); [done|]. exfalso. simpl in Hflag.
  destruct pos as [last_row last_col].
  pose proof (proj1 (has_valid_moves_guard g _ _ (fol_wf _ _ _ _ Hfol)
                       (fol_last _ _ _ _ Hfol)) Hflag) as (row & col & Hguard).
  rewrite (move_guard_free _ _ _ _ _ (fol_wf _ _ _ _ Hfol) (fol_last _ _ _ _ Hfol))
    in Hguard.
  injection Hguard as [Hcell Hk]%free_knight_cell_spec.
  assert ((row, col) ∈ unvisited_neighbors g0 visited (last_row, last_col)) as Hin.
  { apply elem_of_unvisited_neighbors. split; [done|]. split.
    - apply cell_in_grid in Hcell. unfold in_grid in *. simpl.
      by rewrite <- (fol_x _ _ _ _ Hfol), <- (fol_y _ _ _ _ Hfol).
    - by apply (fol_cells _ _ _ _ Hfol _ _ _ Hcell). }
  rewrite Hnone in Hin. by apply elem_of_empty in Hin.
Qed.

Lemma follows_accepted g0 g visited pos next :
  follows g0 g visited pos → next ∈ unvisited_neighbors g0 visited pos →
  (next ∉ visited) ∧ accepted g next.1 next.2 = true.
Proof.
  intros Hfol (Hk & Hin & Hnew)%elem_of_unvisited_neighbors. split; [done|].
  pose proof (fol_wf _ _ _ _ Hfol) as Hwf.
  destruct pos as [last_row last_col], next as [row col]. simpl in *.
  assert (in_grid g row col = true) as Hin'.
  { unfold in_grid in *. by rewrite (fol_x _ _ _ _ Hfol), (fol_y _ _ _ _ Hfol). }
  destruct (cell_is_Some g row col Hwf Hin') as [v Hv].
  assert (v = 0) as -> by (by apply (fol_cells _ _ _ _ Hfol _ _ _ Hv)).
  assert (move_guard g row col = Ok true) as Hguard.
  { rewrite (move_guard_cell _ _ _ _ _ _ (fol_last _ _ _ _ Hfol) Hv).
    unfold knight_apart in Hk. simpl in Hk. by rewrite Hk. }
  assert (has_valid_moves g = Ok true) as Hmoves.
  { apply (has_valid_moves_guard g _ _ Hwf (fol_last _ _ _ _ Hfol)). eauto. }
  pose proof (fol_over _ _ _ _ Hfol) as Hflag. rewrite Hmoves in Hflag.
  unfold accepted. rewrite Hguard. by destruct (game_over g).
Qed.

Lemma run_events_cons g ev evs g1 :
  handle_event g ev = Ok g1 → run_events g (ev :: evs) = run_events g1 evs.
Proof.
  intros Hstep.
  change (run_events g (ev :: evs))
    with (handle_event g ev ≫= λ g', run_events g' evs).
  by rewrite Hstep.
Qed.

(** A game that follows a run of the procedure can be played to its end. *)
Lemma follows_run g0 visited pos n :
  warnsdorff_run g0 visited pos n →
  ∀ g, follows g0 g visited pos →
  ∃ evs g', run_events g evs = Ok g' ∧
            counter g' = Z.of_nat n + 1 ∧ game_over g' = true ∧
            Forall (λ ev, is_reset ev = false) evs.
Proof.
  induction 1 as [visited current Hnone|visited current next n Hnext _ _ IH];
    intros g Hfol.
  - exists [], g. split; [done|]. split; [exact (fol_counter _ _ _ _ Hfol)|].
    split; [by eapply follows_stuck|constructor].
  - destruct (follows_accepted _ _ _ _ _ Hfol Hnext) as [Hnew Hacc].
    destruct (click_follows g0 g visited next) as (g1 & Hstep & Hfol1);
      [apply Hfol..|done|done|].
    destruct (IH g1 Hfol1) as (evs & g' & Hrun & Hcnt & Hover & Hevs).
    exists (click_on g next.1 next.2 :: evs), g'.
    split; [|split; [done|split; [done|by constructor]]].
    by rewrite (run_events_cons _ _ _ _ Hstep).
Qed.

Lemma calculate_max_moves_start g :
  1 ≤ grid_size_y g → 1 ≤ grid_size_x g →
  ∃ s m, in_grid g s.1 s.2 = true ∧ calculate_max_moves g = Ok m ∧
         warnsdorff_run g {[s]} s m.
Proof.
  intros Hy Hx.
  set (len := λ s, match warnsdorff_tour g s with Ok n => n | _ => 0%nat end).
  assert (∀ s, warnsdorff_tour g s = Ok (len s) ∧ warnsdorff_run g {[s]} s (len s))
    as Htour.
  { intros s. unfold len. by destruct (warnsdorff_tour_run g s) as (n & -> & Hrun). }
  destruct (calculate_max_moves_max g len) as (m & Hm & Hall & Hex);
    [intros s; apply Htour|].
  destruct Hex as [->|(s & Hs & <-)].
  - exfalso. assert (in_grid g 0 0 = true) as H00 by (apply in_grid_spec; lia).
    specialize (Hall (0, 0) H00).
    destruct (Htour (0, 0)) as [_ Hrun%warnsdorff_run_size].
    rewrite size_singleton in Hrun. lia.
  - exists s, (len s). split; [done|]. split; [done|]. apply Htour.
Qed.

(** X11. From the state a reset leaves, on a grid with a cell and with a cell
    size other than 0, some sequence of clicks is accepted click after
    click and ends with the game over after exactly [max_possible_moves]
    moves: the displayed maximum is the length of a game that can be
    played. *)
Theorem max_possible_moves_attained g0 g :
  reset_game g0 = Ok g → cell_size g0 ≠ 0 →
  1 ≤ grid_size_y g0 → 1 ≤ grid_size_x g0 →
  ∃ evs g', run_events g evs = Ok g' ∧
            counter g' - 1 = Z.of_nat (max_possible_moves g) ∧
            game_over g' = true ∧
            Forall (λ ev, is_reset ev = false) evs.
Proof.
  intros Hreset Hcs Hy Hx.
  pose proof (reset_game_inv _ _ Hreset) as Hinv.
  destruct (reset_game_Ok g0) as (m & Heq & Hm). rewrite Heq in Hreset.
  injection Hreset as <-.
  set (g := mkGridGame _ _ _ _ _ _ _ _) in *.
  destruct (calculate_max_moves_start g0 Hy Hx) as (s & m' & Hs & Hm' & Hrun).
  rewrite Hm in Hm'. injection Hm' as <-.
  assert (∀ row col v, cell g row col = Some v → (v = 0 ↔ (row, col) ∉ (∅ : gset position)))
    as Hcells.
  { intros row col v Hv. pose proof (inv_range _ _ Hinv _ _ _ Hv).
    split; [set_solver|]. intros _. simpl in *. lia. }
  assert (accepted g s.1 s.2 = true) as Hacc.
  { unfold accepted, move_guard. simpl.
    change (in_grid g s.1 s.2) with (in_grid g0 s.1 s.2). by rewrite Hs. }
  assert (counter g = Z.of_nat (size (∅ : gset position)) + 1) as Hcnt0
    by (by rewrite size_empty).
  destruct (click_follows g0 g ∅ s eq_refl eq_refl Hcs (inv_wf _ _ Hinv) Hcnt0
              Hcells ltac:(set_solver) Hacc) as (g1 & Hstep & Hfol).
  rewrite (left_id_L ∅ (∪)) in Hfol.
  destruct (follows_run g0 {[s]} s m Hrun g1 Hfol)
    as (evs & g' & Hrun' & Hcnt & Hover & Hevs).
  exists (click_on g s.1 s.2 :: evs), g'.
  split; [|split; [simpl; lia|split; [done|by constructor]]].
  by rewrite (run_events_cons _ _ _ _ Hstep).
Qed.

Lemma max_possible_moves_attained_witness :
  reset_game fresh_3x3 = Ok fresh_3x3 ∧ cell_size fresh_3x3 ≠ 0 ∧
  1 ≤ grid_size_y fresh_3x3 ∧ 1 ≤ grid_size_x fresh_3x3 ∧
  ∃ evs g', run_events fresh_3x3 evs = Ok g' ∧
            counter g' - 1 = Z.of_nat (max_possible_moves fresh_3x3) ∧
            game_over g' = true ∧
            Forall (λ ev, is_reset ev = false) evs.
Proof.
  assert (reset_game fresh_3x3 = Ok fresh_3x3) as Hreset by (vm_compute; reflexivity).
  assert (cell_size fresh_3x3 ≠ 0) as Hcs by discriminate.
  assert (1 ≤ grid_size_y fresh_3x3) as Hy by (simpl; lia).
  assert (1 ≤ grid_size_x fresh_3x3) as Hx by (simpl; lia).
  split; [exact Hreset|]. split; [exact Hcs|]. split; [exact Hy|]. split; [exact Hx|].
  exact (max_possible_moves_attained fresh_3x3 fresh_3x3 Hreset Hcs Hy Hx).
Defined.

(** ** A reset forgets the game *)

(** X12. [reset_game] reads the cell size and the dimensions only: two states
    that agree on them are reset to the same state, and resetting the state
    a reset returned gives that state again. *)
Theorem reset_game_forgets g1 g2 :
  cell_size g1 = cell_size g2 → grid_size_x g1 = grid_size_x g2 →
  grid_size_y g1 = grid_size_y g2 →
  reset_game g1 = reset_game g2 ∧
  (∀ g', reset_game g1 = Ok g' → reset_game g' = Ok g').
Proof.
  intros Hcs Hx Hy.
  destruct (reset_game_Ok g1) as (m1 & Heq1 & Hm1).
  destruct (reset_game_Ok g2) as (m2 & Heq2 & Hm2).
  rewrite (calculate_max_moves_ext g1 g2 Hx Hy), Hm2 in Hm1. injection Hm1 as <-.
  split; [by rewrite Heq1, Heq2, Hcs, Hx, Hy|].
  intros g' Hg'. rewrite Heq1 in Hg'. injection Hg' as <-.
  destruct (reset_game_Ok (mkGridGame (cell_size g1) (grid_size_x g1) (grid_size_y g1)
    (replicate (Z.to_nat (grid_size_y g1)) (replicate (Z.to_nat (grid_size_x g1)) 0))
    1 None false m2)) as (m & -> & Hm).
  match type of Hm with
  | calculate_max_moves ?g = _ =>
      rewrite (calculate_max_moves_ext g g2 Hx Hy), Hm2 in Hm
  end.
  by injection Hm as <-.
Qed.

Lemma reset_game_forgets_witness :
  cell_size (first_click 0) = cell_size fresh_10x5 ∧
  grid_size_x (first_click 0) = grid_size_x fresh_10x5 ∧
  grid_size_y (first_click 0) = grid_size_y fresh_10x5 ∧
  reset_game (first_click 0) = reset_game fresh_10x5.
Proof.
  split; [reflexivity|]. split; [reflexivity|]. split; [reflexivity|].
  exact (proj1 (reset_game_forgets (first_click 0) fresh_10x5 eq_refl eq_refl eq_refl)).
Defined.

(** ** Numbers and hints do not overlap *)

(** X13. On a well-formed state the drawing pass finds the number of every cell
    of the grid without a fault; it writes none exactly in the cells that
    hold 0, so a cell filled green carries no number. *)
Theorem cell_label_hint g i j :
  wf_grid g → in_grid g i j = true →
  ∃ label, cell_label g i j = Ok label ∧
           (label = None ↔ cell g i j = Some 0) ∧
           (∀ v, label = Some v ↔ cell g i j = Some v ∧ v ≠ 0) ∧
           (cell_fill g i j = Ok green → label = None).
Proof.
  intros Hwf Hin. destruct (cell_is_Some g i j Hwf Hin) as [v Hv].
  unfold cell_label, cell_fill. rewrite (grid_get_cell _ _ _ _ Hv), Hv. simpl.
  destruct (Z.eqb_spec v 0) as [->|Hne]; simpl; eexists; (split; [done|]).
  - split; [done|]. split; [|done]. intros v. split; [done|]. by intros [[= <-] ?].
  - split; [split; [done|by intros [= ->]]|]. split.
    + intros v'. split; [by intros [= <-]|by intros [[= <-] _]].
    + destruct (game_over g); [done|].
      destruct (last_clicked g) as [[last_row last_col]|]; [|done].
      by destruct (knight_shape _ _).
Qed.

Lemma cell_label_hint_witness :
  wf_grid (first_click 0) ∧ in_grid (first_click 0) 0 0 = true ∧
  ∃ label, cell_label (first_click 0) 0 0 = Ok label ∧
           (label = None ↔ cell (first_click 0) 0 0 = Some 0).
Proof.
  assert (wf_grid (first_click 0)) as Hwf by (apply first_click_wf; lia).
  assert (in_grid (first_click 0) 0 0 = true) as Hin by reflexivity.
  split; [exact Hwf|]. split; [exact Hin|].
  destruct (cell_label_hint (first_click 0) 0 0 Hwf Hin) as (label & Hl & Hnone & _).
  exists label. split; [exact Hl|exact Hnone].
Defined.

(** ** The neighbours of a cell *)

(** X14. [get_valid_neighbors] lists at most eight cells, each once; they are on
    the grid and unvisited, none is the cell itself, and between two
    unvisited cells of the grid the relation is symmetric. *)
Theorem get_valid_neighbors_shape g p visited :
  (length (get_valid_neighbors g p visited) ≤ 8)%nat ∧
  NoDup (get_valid_neighbors g p visited) ∧
  (p ∉ get_valid_neighbors g p visited) ∧
  (∀ q, q ∈ get_valid_neighbors g p visited →
        in_grid g q.1 q.2 = true ∧ q ∉ visited) ∧
  (∀ q, in_grid g p.1 p.2 = true → p ∉ visited →
        q ∈ get_valid_neighbors g p visited → p ∈ get_valid_neighbors g q visited).
Proof.
  split; [|split; [apply NoDup_get_valid_neighbors|split; [|split]]].
  - destruct p as [row col]. unfold get_valid_neighbors.
    etrans; [apply length_filter|]. done.
  - intros [Hk _]%elem_of_get_valid_neighbors.
    unfold knight_apart in Hk. apply knight_shape_spec in Hk. lia.
  - by intros q (_ & Hin & Hnew)%elem_of_get_valid_neighbors.
  - intros q Hp Hnew (Hk & _ & _)%elem_of_get_valid_neighbors.
    apply elem_of_get_valid_neighbors. split; [|done].
    unfold knight_apart in *. apply knight_shape_spec in Hk.
    apply knight_shape_spec. lia.
Qed.
